(** * Summit of Dawn: scene timing, playback clock and soundscape targets

    A shallow embedding of the timing core of the cinematic player:
    - [getSceneState]       (app/components/CinematicExperience.tsx)
    - [step], [handleStart], [handleReplay], [handlePauseToggle]
                            (app/components/CinematicExperience.tsx)
    - the gain effects, [createNoiseBuffer], [ensureContext] and the effects
      that start the engine (app/components/SoundscapeController.tsx)
    - the ticks, the progress bar and the active item of the timeline
                            (app/components/SceneTimeline.tsx)

    Numbers.  A JavaScript number that is finite is a rational [Q];
    comparisons of numbers are comparisons of rationals and equality of
    numbers is [Qeq] ([==]).  The file has two readings of the arithmetic:

    - the exact one, where [+], [-], [*] and [/] are those of the rationals.
      It carries the properties that rounding does not touch: the order of
      the indices, the clamps, the phases of the player, what is or is not
      called;
    - the binary64 one ([Float64], [Rounded]), where every operation is
      followed by the rounding to the nearest double, ties to even, as the
      engine does it.  It carries the properties in which a rounded sum,
      difference or quotient shows.

    A division has no result when the divisor is zero ([Num.divide],
    [Float64.div]): JavaScript yields NaN or an infinity there. *)

From Stdlib Require Import String QArith Qminmax Qround Qpower Lqa ZArith List Bool Lia.
Import ListNotations.

Local Open Scope Q_scope.

(** ** Numbers *)

Module Num.

(** [x < y] on numbers, as a boolean. *)
Definition ltb (x y : Q) : bool :=
  match x ?= y with
  | Lt => true
  | _ => false
  end.

(** [x >= y] on numbers, as a boolean. *)
Definition geb (x y : Q) : bool := negb (ltb x y).

(** [x / y].  JavaScript yields NaN or an infinity when [y] is zero, which no
    rational stands for: the model has no result there. *)
Definition divide (x y : Q) : option Q :=
  if Qeq_bool y 0 then None else Some (x / y).

End Num.

(** ** Binary64

    The doubles are the rationals [m * 2^e] with [|m| <= 2^53] and
    [e >= -1074].  [round64] maps a rational to the nearest double, ties to
    the even mantissa; below [2^-1022] the spacing stays [2^-1074] (gradual
    underflow).  The overflow to an infinity beyond [2^1024] is not
    modelled: the numbers of the player are seconds and gains. *)

Module Float64.

(** [2^e] *)
Definition pow2 (e : Z) : Q := 2 ^ e.

(** The integer part of the binary logarithm of a positive rational. *)
Definition ilog2 (x : Q) : Z :=
  let k := (Z.log2 (Qnum x) - Z.log2 (Zpos (Qden x)))%Z in
  if Qle_bool (pow2 k) x then k else (k - 1)%Z.

(** The nearest integer, ties to even. *)
Definition rne (q : Q) : Z :=
  let f := Qfloor q in
  match Qcompare (q - inject_Z f) (1 # 2) with
  | Lt => f
  | Gt => (f + 1)%Z
  | Eq => if Z.even f then f else (f + 1)%Z
  end.

(** The exponent of the last place in the binade of a positive [x]. *)
Definition exponent (x : Q) : Z := Z.max (ilog2 x - 52) (-1074).

(** The nearest multiple of [2^e]. *)
Definition roundAt (e : Z) (x : Q) : Q :=
  inject_Z (rne (x / pow2 e)) * pow2 e.

Definition roundPos (x : Q) : Q := roundAt (exponent x) x.

(** The nearest double. *)
Definition round64 (x : Q) : Q :=
  if Num.ltb x 0 then - roundPos (- x) else roundPos x.

(** The number is a double. *)
Definition representable (x : Q) : Prop := round64 x == x.

(** The double that a decimal literal of the source denotes. *)
Definition lit (x : Q) : Q := round64 x.

Definition add (x y : Q) : Q := round64 (x + y).

Definition sub (x y : Q) : Q := round64 (x - y).

Definition mul (x y : Q) : Q := round64 (x * y).

Definition div (x y : Q) : option Q :=
  if Qeq_bool y 0 then None else Some (round64 (x / y)).

End Float64.

(** ** The scene catalog (lib/scenes) *)

Inductive Tone : Type :=
| cold
| transition
| warm.

(** Modelled from the spec: the [SceneDescriptor] type of lib/scenes, which the
    components import.  The fields are the ones the spec's data model lists,
    and the ones the components read ([scene.id], [scene.label],
    [scene.description], [currentScene.camera], [currentScene.visualCue],
    [currentScene.audioCue], [scene.tone], [scene.duration]). *)
Record SceneDescriptor : Type := mkScene {
  id : string;
  label : string;
  description : string;
  camera : string;
  visualCue : string;
  audioCue : string;
  tone : Tone;
  duration : Q
}.

(** The sum of the durations of the scenes before position [index]:
    [scenes.slice(0, index).reduce((accumulator, current) =>
       accumulator + current.duration, 0)]
    as SceneTimeline computes it for the ticks of the timeline. *)
Definition offsetBefore (scenes : list SceneDescriptor) (index : nat) : Q :=
  fold_left (fun accumulator current => accumulator + duration current)
            (firstn index scenes) 0.

(** The cumulative end of the scene at position [index]. *)
Definition cumulativeEnd (scenes : list SceneDescriptor) (index : nat) : Q :=
  offsetBefore scenes (S index).

(** The sum of all the durations. *)
Definition totalDuration (scenes : list SceneDescriptor) : Q :=
  offsetBefore scenes (length scenes).

(** ** The scene resolver *)

Record SceneState : Type := mkSceneState {
  index : Z;
  sceneElapsed : Q;
  totalElapsed : Q;
  progress : Q
}.

Section Resolver.

(** The catalog is a constant of lib/scenes; the resolver is embedded for
    an arbitrary one. *)
Variable SCENE_SEQUENCE : list SceneDescriptor.

(** [SCENE_SEQUENCE.length] *)
Definition sequenceLength : Z := Z.of_nat (length SCENE_SEQUENCE).

(** [SCENE_SEQUENCE.at(-1)?.duration ?? 0] *)
Definition lastDuration : Q := last (map duration SCENE_SEQUENCE) 0.

(** The body of the loop of [getSceneState], from position [index] on:
    [remaining] is [SCENE_SEQUENCE] from that position, so that its head is
    [SCENE_SEQUENCE[index]] and the loop ends ([index < length] fails) when
    it is empty. *)
Fixpoint sceneLoop (elapsed : Q) (index : Z) (accumulator : Q)
         (remaining : list SceneDescriptor) : option SceneState :=
  match remaining with
  | [] =>
      Some {| index := sequenceLength - 1;
              sceneElapsed := lastDuration;
              totalElapsed := elapsed;
              progress := 1 |}
  | scene :: remaining' =>
      let start := accumulator in
      let end_ := accumulator + duration scene in
      if Num.ltb elapsed end_ || (index =? sequenceLength - 1)%Z then
        let clamped := Qmin (Qmax (elapsed - start) 0) (duration scene) in
        match (if Num.ltb 0 (duration scene)
               then Num.divide clamped (duration scene)
               else Some 0) with
        | Some progress =>
            Some {| index := index;
                    sceneElapsed := clamped;
                    totalElapsed := elapsed;
                    progress := progress |}
        | None => None
        end
      else sceneLoop elapsed (index + 1) end_ remaining'
  end.

Definition getSceneState (elapsed : Q) : option SceneState :=
  sceneLoop elapsed 0 0 SCENE_SEQUENCE.

End Resolver.

(** The scene at position [k] is the active one at [elapsed]: it is the first
    one whose cumulative end exceeds [elapsed], or the last one when there is
    none. *)
Definition activeAt (scenes : list SceneDescriptor) (elapsed : Q) (k : nat) : Prop :=
  (k < length scenes)%nat /\
  (forall j, (j < k)%nat -> cumulativeEnd scenes j <= elapsed) /\
  (elapsed < cumulativeEnd scenes k \/ S k = length scenes).

(** The state the loop returns from position [k], where the scene [scene]
    starts at [start]. *)
Definition stateAt (elapsed : Q) (k : nat) (start : Q) (scene : SceneDescriptor)
  : SceneState :=
  let clamped := Qmin (Qmax (elapsed - start) 0) (duration scene) in
  {| index := Z.of_nat k;
     sceneElapsed := clamped;
     totalElapsed := elapsed;
     progress := if Num.ltb 0 (duration scene) then clamped / duration scene else 0 |}.

(** Every duration of the catalog is positive. *)
Definition positiveDurations (scenes : list SceneDescriptor) : Prop :=
  Forall (fun scene => 0 < duration scene) scenes.

(** The duration of the scene at position [i] (0 out of range). *)
Definition durationAt (scenes : list SceneDescriptor) (i : Z) : Q :=
  if (i <? 0)%Z then 0 else nth (Z.to_nat i) (map duration scenes) 0.

(** ** The playback clock and the transport commands *)

Inductive PlaybackState : Type :=
| idle
| running
| complete.

(** The state of the component: the three [useState] cells and the
    [lastTimestampRef] ref ([None] stands for [null]).  The handle of the
    pending animation frame ([rafRef]) belongs to the host's scheduler and is
    left out. *)
Record Player : Type := mkPlayer {
  playbackState : PlaybackState;
  elapsed : Q;
  mute : bool;
  lastTimestampRef : option Q
}.

Definition initialPlayer : Player :=
  {| playbackState := idle; elapsed := 0; mute := false; lastTimestampRef := None |}.

Definition isRunning (st : Player) : bool :=
  match playbackState st with
  | running => true
  | _ => false
  end.

Section Clock.

(** The published total is a constant of lib/scenes. *)
Variable TOTAL_DURATION_SECONDS : Q.

(** The baseline of a frame:
    [if (!lastTimestampRef.current) lastTimestampRef.current = timestamp]
    ([null] and [0] are the falsy values of the ref). *)
Definition baseline (st : Player) (timestamp : Q) : Q :=
  match lastTimestampRef st with
  | None => timestamp
  | Some previous => if Qeq_bool previous 0 then timestamp else previous
  end.

(** The animation-frame callback [step]. *)
Definition step (timestamp : Q) (st : Player) : Player :=
  let delta := (timestamp - baseline st timestamp) / 1000 in
  let next := Qmin (elapsed st + delta) TOTAL_DURATION_SECONDS in
  {| playbackState :=
       if Num.geb next TOTAL_DURATION_SECONDS then complete else playbackState st;
     elapsed := next;
     mute := mute st;
     lastTimestampRef := Some timestamp |}.

Definition handleStart (st : Player) : Player :=
  {| playbackState := running;
     elapsed := 0;
     mute := mute st;
     lastTimestampRef := lastTimestampRef st |}.

Definition handleReplay (st : Player) : Player :=
  {| playbackState := running;
     elapsed := 0;
     mute := mute st;
     lastTimestampRef := lastTimestampRef st |}.

Definition handlePauseToggle (st : Player) : Player :=
  match playbackState st with
  | running =>
      {| playbackState := idle;
         elapsed := elapsed st;
         mute := mute st;
         lastTimestampRef := lastTimestampRef st |}
  | idle =>
      if Num.ltb (elapsed st) TOTAL_DURATION_SECONDS then
        {| playbackState := running;
           elapsed := elapsed st;
           mute := mute st;
           lastTimestampRef := lastTimestampRef st |}
      else st
  | complete => st
  end.

(** The part of the clock effect that runs when the player is not running:
    the baseline is cleared. *)
Definition clockEffect (st : Player) : Player :=
  if isRunning st then st
  else {| playbackState := playbackState st;
          elapsed := elapsed st;
          mute := mute st;
          lastTimestampRef := None |}.

(** What can happen to the player. *)
Inductive Event : Type :=
| Frame (timestamp : Q)
| Start
| Replay
| PauseToggle.

Definition handle (ev : Event) (st : Player) : Player :=
  match ev with
  | Frame timestamp => step timestamp st
  | Start => handleStart st
  | Replay => handleReplay st
  | PauseToggle => handlePauseToggle st
  end.

Definition samePhase (a b : PlaybackState) : bool :=
  match a, b with
  | idle, idle | running, running | complete, complete => true
  | _, _ => false
  end.

(** An event, then the effect of the render it causes: the clock effect
    depends on [isRunning] and [playbackState] and runs again when the
    phase has changed. *)
Definition dispatch (ev : Event) (st : Player) : Player :=
  let st' := handle ev st in
  if samePhase (playbackState st) (playbackState st') then st'
  else clockEffect st'.

(** The host hands out timestamps in order: a frame is never stamped
    before the previous one. *)
Definition inOrder (st : Player) (timestamp : Q) : Prop :=
  match lastTimestampRef st with
  | None => True
  | Some previous => previous <= timestamp
  end.

Definition admissible (st : Player) (ev : Event) : Prop :=
  match ev with
  | Frame timestamp => inOrder st timestamp
  | _ => True
  end.

(** The states of the player that a run can reach. *)
Inductive reachable : Player -> Prop :=
| reachable_initial : reachable initialPlayer
| reachable_dispatch st ev :
    reachable st -> admissible st ev -> reachable (dispatch ev st).

End Clock.

(** ** The soundscape targets *)

Module Soundscape.

Record Gains : Type := mkGains {
  wind : Q;
  shimmer : Q;
  pulse : Q
}.

Definition toneGains (t : Tone) : Gains :=
  match t with
  | cold => {| wind := 0.9; shimmer := 0.15; pulse := 0.2 |}
  | transition => {| wind := 0.6; shimmer := 0.4; pulse := 0.45 |}
  | warm => {| wind := 0.3; shimmer := 0.6; pulse := 0.8 |}
  end.

(** The gain parameters the effects write to. *)
Inductive GainParam : Type :=
| masterGain
| windGain
| shimmerGain
| pulseGain.

(** The calls the effects make on a gain parameter. *)
Inductive ParamCall : Type :=
| cancelScheduledValues (cancelTime : Q)
| setTargetAtTime (target startTime timeConstant : Q).

(** What the effects read of the audio nodes: the clock of the context. *)
Record InternalNodes : Type := mkNodes {
  currentTime : Q
}.

(** The effect on [isPlaying] and [mute]: the calls it makes, in order.
    [nodesRef] is [None] until the engine is initialised. *)
Definition masterEffect (nodesRef : option InternalNodes) (isPlaying mute : bool)
  : list (GainParam * ParamCall) :=
  match nodesRef with
  | None => []
  | Some nodes =>
      if mute || negb isPlaying then
        [ (masterGain, cancelScheduledValues (currentTime nodes));
          (masterGain, setTargetAtTime 0.0001 (currentTime nodes) 0.4) ]
      else
        [ (masterGain, cancelScheduledValues (currentTime nodes));
          (masterGain, setTargetAtTime 0.45 (currentTime nodes) 0.2) ]
  end.

Section Crunch.

(** [Math.sin] and [Math.PI], which the rationals do not have. *)
Variable sin : Q -> Q.
Variable PI : Q.

Definition crunchPulse (currentScene : SceneDescriptor) (sceneProgress : Q) : Q :=
  if (id currentScene =? "ascent")%string || (id currentScene =? "summit")%string
  then 0.35 + 0.4 * sin (sceneProgress * PI * 4)
  else 0.

(** The effect on [currentScene] and [sceneProgress]. *)
Definition sceneEffect (nodesRef : option InternalNodes)
           (currentScene : SceneDescriptor) (sceneProgress : Q)
  : list (GainParam * ParamCall) :=
  match nodesRef with
  | None => []
  | Some nodes =>
      let gains := toneGains (tone currentScene) in
      let now := currentTime nodes in
      let crunchPulse := crunchPulse currentScene sceneProgress in
      [ (windGain, cancelScheduledValues now);
        (windGain, setTargetAtTime (wind gains) now 0.5);
        (shimmerGain, cancelScheduledValues now);
        (shimmerGain, setTargetAtTime (shimmer gains + crunchPulse * 0.3) now 0.3);
        (pulseGain, cancelScheduledValues now);
        (pulseGain, setTargetAtTime (pulse gains + crunchPulse * 0.5) now 0.4) ]
  end.

End Crunch.

End Soundscape.

(** ** What the component renders from the state *)


(** The controls under the viewer: the launch button, or the transport with
    the label of its first button. *)
Inductive Controls : Type :=
| LaunchFilm
| Transport (toggleLabel : string).

Definition isIdle (st : Player) : bool :=
  match playbackState st with
  | idle => true
  | _ => false
  end.

(** [isIdle && elapsed === 0 ? <Launch Film> : <transport>], where the first
    button of the transport reads
    [playbackState === "running" ? "Pause" : "Resume"]. *)
Definition controls (st : Player) : Controls :=
  if isIdle st && Qeq_bool (elapsed st) 0 then LaunchFilm
  else Transport (if isRunning st then "Pause" else "Resume").

(** ** The timeline (SceneTimeline) *)

Module Timeline.

(** The width of the progress bar, in percent:
    [(elapsed / totalDuration) * 100]. *)
Definition progressWidth (elapsed total : Q) : option Q :=
  match Num.divide elapsed total with
  | Some ratio => Some (ratio * 100)
  | None => None
  end.

(** [scene.id === currentScene.id] *)
Definition isActive (currentScene scene : SceneDescriptor) : bool :=
  (id scene =? id currentScene)%string.

(** The items of the list that carry the active class, in order. *)
Definition activeItems (scenes : list SceneDescriptor) (currentScene : SceneDescriptor)
  : list bool :=
  map (isActive currentScene) scenes.

End Timeline.

(** ** The noise buffers and the life of the audio engine *)

Module Noise.

Inductive Color : Type :=
| white
| pink.

(** The loop of [createNoiseBuffer] from sample [i] on, [count] samples to go.
    [random i] is the result of the call of [Math.random()] in iteration [i].
    The samples are kept as computed; their rounding to 32 bits in the
    channel is not modelled. *)
Fixpoint fill (random : nat -> Q) (color : Color) (i count : nat) (lastOut : Q)
  : list Q :=
  match count with
  | O => []
  | S count' =>
      let whiteSample := random i * 2 - 1 in
      match color with
      | white => whiteSample :: fill random color (S i) count' lastOut
      | pink =>
          let lastOut' := (lastOut + 0.02 * whiteSample) / 1.02 in
          lastOut' * 3.5 :: fill random color (S i) count' lastOut'
      end
  end.

(** The channel data of the buffer: [bufferSize = context.sampleRate * 2]. *)
Definition createNoiseBuffer (random : nat -> Q) (sampleRate : nat) (color : Color)
  : list Q :=
  fill random color 0 (sampleRate * 2) 0.

End Noise.

Module Engine.

(** The ref and the state cell of the controller. *)
Record Engine : Type := mkEngine {
  nodesRef : option Soundscape.InternalNodes;
  initialised : bool
}.

Definition initialEngine : Engine :=
  {| nodesRef := None; initialised := false |}.

(** [ensureContext]: [created] stands for the nodes that [initialiseContext]
    builds when it is called. *)
Definition ensureContext (created : Soundscape.InternalNodes) (eng : Engine)
  : Engine * Soundscape.InternalNodes :=
  match nodesRef eng with
  | Some nodes => (eng, nodes)
  | None => ({| nodesRef := Some created; initialised := true |}, created)
  end.

(** The effect on [isPlaying] and [mute] that starts the engine.  Resuming a
    suspended context is the host's and is left out. *)
Definition playEffect (created : Soundscape.InternalNodes) (isPlaying mute : bool)
           (eng : Engine) : Engine :=
  if negb isPlaying || mute then eng else fst (ensureContext created eng).

(** The listener for the first pointer or key event; it is only registered
    while [initialised] is false. *)
Definition handleInteraction (created : Soundscape.InternalNodes) (eng : Engine)
  : Engine :=
  if initialised eng then eng else fst (ensureContext created eng).

Inductive EngineEvent : Type :=
| PlayEffect (created : Soundscape.InternalNodes) (isPlaying mute : bool)
| Interaction (created : Soundscape.InternalNodes).

Definition react (ev : EngineEvent) (eng : Engine) : Engine :=
  match ev with
  | PlayEffect created isPlaying mute => playEffect created isPlaying mute eng
  | Interaction created => handleInteraction created eng
  end.

(** The engine after a sequence of events, oldest first. *)
Definition runEngine (events : list EngineEvent) (eng : Engine) : Engine :=
  fold_left (fun e ev => react ev e) events eng.

End Engine.

(** ** The binary64 reading of the resolver, the frame and the targets *)

Module Rounded.

(** The sum of the durations before position [index], added in order as the
    loop of [getSceneState] and the [reduce] of SceneTimeline add them:
    every addition rounds. *)
Definition offsetBefore (scenes : list SceneDescriptor) (index : nat) : Q :=
  fold_left (fun accumulator current => Float64.add accumulator (duration current))
            (firstn index scenes) 0.

(** The cumulative end of the scene at [index]: the [end] of the loop. *)
Definition cumulativeEnd (scenes : list SceneDescriptor) (index : nat) : Q :=
  offsetBefore scenes (S index).

(** The durations, summed in order. *)
Definition totalDuration (scenes : list SceneDescriptor) : Q :=
  offsetBefore scenes (length scenes).

Section Resolver.

Variable SCENE_SEQUENCE : list SceneDescriptor.

(** The loop of [getSceneState], as [sceneLoop] above, with the rounding of
    [accumulator + scene.duration], [elapsed - start] and
    [clamped / scene.duration]. *)
Fixpoint sceneLoop (elapsed : Q) (index : Z) (accumulator : Q)
         (remaining : list SceneDescriptor) : option SceneState :=
  match remaining with
  | [] =>
      Some {| index := sequenceLength SCENE_SEQUENCE - 1;
              sceneElapsed := lastDuration SCENE_SEQUENCE;
              totalElapsed := elapsed;
              progress := 1 |}
  | scene :: remaining' =>
      let start := accumulator in
      let end_ := Float64.add accumulator (duration scene) in
      if Num.ltb elapsed end_ || (index =? sequenceLength SCENE_SEQUENCE - 1)%Z then
        let clamped :=
          Qmin (Qmax (Float64.sub elapsed start) 0) (duration scene) in
        match (if Num.ltb 0 (duration scene)
               then Float64.div clamped (duration scene)
               else Some 0) with
        | Some progress =>
            Some {| index := index;
                    sceneElapsed := clamped;
                    totalElapsed := elapsed;
                    progress := progress |}
        | None => None
        end
      else sceneLoop elapsed (index + 1) end_ remaining'
  end.

Definition getSceneState (elapsed : Q) : option SceneState :=
  sceneLoop elapsed 0 0 SCENE_SEQUENCE.

End Resolver.

(** The scene at position [k] is the active one at [elapsed]: the first one
    whose cumulative end, as the loop computes it, exceeds [elapsed], or the
    last one when there is none. *)
Definition activeAt (scenes : list SceneDescriptor) (elapsed : Q) (k : nat) : Prop :=
  (k < length scenes)%nat /\
  (forall j, (j < k)%nat -> cumulativeEnd scenes j <= elapsed) /\
  (elapsed < cumulativeEnd scenes k \/ S k = length scenes).

(** The state the loop returns from position [k], where the scene [scene]
    starts at [start]. *)
Definition stateAt (elapsed : Q) (k : nat) (start : Q) (scene : SceneDescriptor)
  : SceneState :=
  let clamped := Qmin (Qmax (Float64.sub elapsed start) 0) (duration scene) in
  {| index := Z.of_nat k;
     sceneElapsed := clamped;
     totalElapsed := elapsed;
     progress := if Num.ltb 0 (duration scene)
                 then Float64.round64 (clamped / duration scene) else 0 |}.

(** Every duration of the catalog is a double. *)
Definition representableDurations (scenes : list SceneDescriptor) : Prop :=
  Forall (fun scene => Float64.representable (duration scene)) scenes.

(** The scale of the viewport: [1.02 + sceneState.progress * 0.12]. *)
Definition viewportScale (st : SceneState) : Q :=
  Float64.add (Float64.lit 1.02) (Float64.mul (progress st) (Float64.lit 0.12)).

(** The position of the climber, in percent:
    [35 + sceneState.progress * 30] and [45 - sceneState.progress * 20]. *)
Definition climberLeft (st : SceneState) : Q :=
  Float64.add 35 (Float64.mul (progress st) 30).

Definition climberTop (st : SceneState) : Q :=
  Float64.sub 45 (Float64.mul (progress st) 20).

(** The position of the tick of the scene at [index] in the timeline, as a
    fraction of the width: the sum of the durations before it, divided by
    [totalDuration]. *)
Definition sceneOffset (scenes : list SceneDescriptor) (total : Q) (index : nat)
  : option Q :=
  Float64.div (offsetBefore scenes index) total.

(** The table [toneGains], its entries read as doubles. *)
Definition toneGains (t : Tone) : Soundscape.Gains :=
  match t with
  | cold =>
      {| Soundscape.wind := Float64.lit 0.9;
         Soundscape.shimmer := Float64.lit 0.15;
         Soundscape.pulse := Float64.lit 0.2 |}
  | transition =>
      {| Soundscape.wind := Float64.lit 0.6;
         Soundscape.shimmer := Float64.lit 0.4;
         Soundscape.pulse := Float64.lit 0.45 |}
  | warm =>
      {| Soundscape.wind := Float64.lit 0.3;
         Soundscape.shimmer := Float64.lit 0.6;
         Soundscape.pulse := Float64.lit 0.8 |}
  end.

Section Crunch.

(** [Math.sin] and [Math.PI]. *)
Variable sin : Q -> Q.
Variable PI : Q.

(** [0.35 + 0.4 * Math.sin(sceneProgress * Math.PI * 4)] on the two scenes,
    0 elsewhere. *)
Definition crunchPulse (currentScene : SceneDescriptor) (sceneProgress : Q) : Q :=
  if (id currentScene =? "ascent")%string || (id currentScene =? "summit")%string
  then Float64.add (Float64.lit 0.35)
         (Float64.mul (Float64.lit 0.4)
            (sin (Float64.mul (Float64.mul sceneProgress PI) 4)))
  else 0.

(** The effect on [currentScene] and [sceneProgress]. *)
Definition sceneEffect (nodesRef : option Soundscape.InternalNodes)
           (currentScene : SceneDescriptor) (sceneProgress : Q)
  : list (Soundscape.GainParam * Soundscape.ParamCall) :=
  match nodesRef with
  | None => []
  | Some nodes =>
      let gains := toneGains (tone currentScene) in
      let now := Soundscape.currentTime nodes in
      let crunchPulse := crunchPulse currentScene sceneProgress in
      [ (Soundscape.windGain, Soundscape.cancelScheduledValues now);
        (Soundscape.windGain,
         Soundscape.setTargetAtTime (Soundscape.wind gains) now (Float64.lit 0.5));
        (Soundscape.shimmerGain, Soundscape.cancelScheduledValues now);
        (Soundscape.shimmerGain,
         Soundscape.setTargetAtTime
           (Float64.add (Soundscape.shimmer gains)
                        (Float64.mul crunchPulse (Float64.lit 0.3)))
           now (Float64.lit 0.3));
        (Soundscape.pulseGain, Soundscape.cancelScheduledValues now);
        (Soundscape.pulseGain,
         Soundscape.setTargetAtTime
           (Float64.add (Soundscape.pulse gains)
                        (Float64.mul crunchPulse (Float64.lit 0.5)))
           now (Float64.lit 0.4)) ]
  end.

End Crunch.

End Rounded.

(** ** A catalog to run the definitions on

    Eight scenes and sixty seconds, the shape the test of the component
    checks; the ids other than ascent and summit, the texts and the split of
    the sixty seconds are illustrative. *)

Definition sampleScene (name : string) (t : Tone) (d : Q) : SceneDescriptor :=
  {| id := name; label := name; description := ""; camera := "";
     visualCue := ""; audioCue := ""; tone := t; duration := d |}.

Definition sampleCatalog : list SceneDescriptor :=
  [ sampleScene "predawn" cold 6;
    sampleScene "basecamp" cold 7;
    sampleScene "icefall" cold 8;
    sampleScene "ascent" transition 8;
    sampleScene "ridge" transition 8;
    sampleScene "summit" warm 8;
    sampleScene "sunrise" warm 7;
    sampleScene "triumph" warm 8 ].

(** A catalog of eight scenes whose durations are not whole seconds; added
    in order, they sum to 60. *)
Definition roundingCatalog : list SceneDescriptor :=
  [ sampleScene "predawn" cold (Float64.lit 7.9);
    sampleScene "basecamp" cold (Float64.lit 8.5);
    sampleScene "icefall" cold (Float64.lit 10.7);
    sampleScene "ascent" transition 3;
    sampleScene "ridge" transition (Float64.lit 11.9);
    sampleScene "summit" warm (Float64.lit 8.7);
    sampleScene "sunrise" warm (Float64.lit 6.4);
    sampleScene "triumph" warm (Float64.lit 2.9) ].

(** A catalog of two scenes of 0.7 and 0.1 seconds. *)
Definition driftCatalog : list SceneDescriptor :=
  [ sampleScene "ascent" transition (Float64.lit 0.7);
    sampleScene "summit" warm (Float64.lit 0.1) ].

(** A catalog whose second cumulative end is 0.7999999999999999, and one
    whose first scene is so long that the accumulator absorbs the second. *)
Definition nearCatalog : list SceneDescriptor :=
  [ sampleScene "predawn" cold (Float64.lit 0.7);
    sampleScene "ascent" transition (Float64.lit 0.1);
    sampleScene "summit" warm 1 ].

Definition absorbingCatalog : list SceneDescriptor :=
  [ sampleScene "predawn" cold (inject_Z (2 ^ 53));
    sampleScene "ascent" transition 1;
    sampleScene "summit" warm 1 ].

(** A catalog that ends on a scene without duration. *)
Definition stillCatalog : list SceneDescriptor :=
  [ sampleScene "ascent" transition 5; sampleScene "still" warm 0 ].

(** A run of the player to the end of a sixty-second film: launch, a first
    frame at 1000 ms, and a frame 69 seconds later. *)
Definition finishedPlayer : Player :=
  dispatch 60 (Frame 70000) (dispatch 60 (Frame 1000) (dispatch 60 Start initialPlayer)).

(** A scene of the sample catalog that is neither the ascent nor the summit. *)
Definition icefallScene : SceneDescriptor := sampleScene "icefall" cold 8.

(** The audio nodes, two seconds into the life of the context. *)
Definition sampleNodes : Soundscape.InternalNodes :=
  {| Soundscape.currentTime := 2 |}.

(** The nodes of a second context, had one been created later. *)
Definition laterNodes : Soundscape.InternalNodes :=
  {| Soundscape.currentTime := 0 |}.

(** A source of random numbers that alternates between 0 and 0.75. *)
Definition sampleRandom (i : nat) : Q := if Nat.even i then 0 else 0.75.

(** A run that is paused twelve seconds into the film. *)
Definition pausedRun : Player :=
  dispatch 60 PauseToggle
    (dispatch 60 (Frame 13000) (dispatch 60 (Frame 1000) (dispatch 60 Start initialPlayer))).

(** A run that is twelve seconds into the film. *)
Definition playingRun : Player :=
  dispatch 60 (Frame 13000) (dispatch 60 (Frame 1000) (dispatch 60 Start initialPlayer)).

(** A player paused twelve seconds into the film. *)
Definition pausedPlayer : Player :=
  {| playbackState := idle; elapsed := 12; mute := false; lastTimestampRef := None |}.

(** ** Facts on numbers *)

Lemma ltb_true (x y : Q) : Num.ltb x y = true <-> x < y.
Proof.
  unfold Num.ltb. rewrite Qlt_alt.
  destruct (x ?= y); split; intro H; congruence.
Qed.

Lemma ltb_false (x y : Q) : Num.ltb x y = false <-> y <= x.
Proof.
  split; intro H.
  - apply Qnot_lt_le. intro L. apply ltb_true in L. congruence.
  - destruct (Num.ltb x y) eqn:E; [| reflexivity].
    apply ltb_true in E. exfalso. apply (Qlt_not_le _ _ E H).
Qed.

Lemma geb_true (x y : Q) : Num.geb x y = true <-> y <= x.
Proof.
  unfold Num.geb. rewrite negb_true_iff. apply ltb_false.
Qed.

Lemma divide_positive (x y : Q) : 0 < y -> Num.divide x y = Some (x / y).
Proof.
  intro H. unfold Num.divide.
  destruct (Qeq_bool y 0) eqn:E; [| reflexivity].
  apply Qeq_bool_eq in E. rewrite E in H. exfalso. apply (Qlt_irrefl 0 H).
Qed.

Lemma divide_defined (x y : Q) : Num.divide x y <> None <-> ~ y == 0.
Proof.
  unfold Num.divide. destruct (Qeq_bool y 0) eqn:E.
  - apply Qeq_bool_eq in E. split; intro H; [congruence | contradiction].
  - split; intro H; [| discriminate].
    intro Z. apply Qeq_eq_bool in Z. congruence.
Qed.

(** Clamping into [[0, d]]. *)
Lemma clamp_le (x d : Q) : Qmin (Qmax x 0) d <= d.
Proof. apply Q.le_min_r. Qed.

Lemma clamp_nonneg (x d : Q) : 0 <= d -> 0 <= Qmin (Qmax x 0) d.
Proof.
  intro H. apply Q.min_glb; [apply Q.le_max_r | exact H].
Qed.

(** ** Facts on the offsets of a catalog *)

Lemma firstn_snoc {A : Type} (l : list A) (n : nat) (x : A) :
  nth_error l n = Some x -> firstn (S n) l = firstn n l ++ [x].
Proof.
  revert n. induction l as [| a l IH]; intros [| n] H; simpl in *; try discriminate.
  - injection H as ->. reflexivity.
  - f_equal. apply IH. exact H.
Qed.

Lemma offsetBefore_succ (scenes : list SceneDescriptor) (n : nat) (scene : SceneDescriptor) :
  nth_error scenes n = Some scene ->
  offsetBefore scenes (S n) = offsetBefore scenes n + duration scene.
Proof.
  intro H. unfold offsetBefore.
  rewrite (firstn_snoc _ _ _ H), fold_left_app. reflexivity.
Qed.

Lemma nth_error_middle {A : Type} (pre rest : list A) (x : A) :
  nth_error (pre ++ x :: rest) (length pre) = Some x.
Proof.
  rewrite nth_error_app2 by lia. rewrite Nat.sub_diag. reflexivity.
Qed.

(** ** The loop of the resolver *)

Section ResolverFacts.

Variable scenes : list SceneDescriptor.
Variable elapsed : Q.

(** The active position is unique. *)
Lemma activeAt_unique (k k' : nat) :
  activeAt scenes elapsed k -> activeAt scenes elapsed k' -> k = k'.
Proof.
  intros (Hk & Hbefore & Hend) (Hk' & Hbefore' & Hend').
  destruct (Nat.lt_trichotomy k k') as [L | [E | L]]; [| exact E |]; exfalso.
  - specialize (Hbefore' k L).
    destruct Hend as [Hend | Hend]; [| lia].
    apply (Qlt_not_le _ _ Hend Hbefore').
  - specialize (Hbefore k' L).
    destruct Hend' as [Hend' | Hend']; [| lia].
    apply (Qlt_not_le _ _ Hend' Hbefore).
Qed.

(** The invariant of the loop: entered at the position after [pre], with
    the offset of that position accumulated and with every earlier scene
    ended by [elapsed], the loop returns the state of the active scene. *)
Lemma sceneLoop_active (remaining pre : list SceneDescriptor) :
  scenes = pre ++ remaining ->
  remaining <> [] ->
  (forall j, (j < length pre)%nat -> cumulativeEnd scenes j <= elapsed) ->
  exists k scene,
    nth_error scenes k = Some scene /\
    activeAt scenes elapsed k /\
    sceneLoop scenes elapsed (Z.of_nat (length pre))
              (offsetBefore scenes (length pre)) remaining
    = Some (stateAt elapsed k (offsetBefore scenes k) scene).
Proof.
  revert pre. induction remaining as [| scene remaining' IH]; intros pre Hsplit Hne Hbefore.
  - contradiction.
  - assert (nth_error scenes (length pre) = Some scene) as Hnth
      by (rewrite Hsplit; apply nth_error_middle).
    assert (length scenes = (length pre + S (length remaining'))%nat) as Hlen
      by (rewrite Hsplit, length_app; reflexivity).
    pose proof (offsetBefore_succ _ _ _ Hnth) as Hend.
    simpl sceneLoop.
    destruct (Num.ltb elapsed (offsetBefore scenes (length pre) + duration scene)
              || (Z.of_nat (length pre) =? sequenceLength scenes - 1)%Z) eqn:Hcond.
    + exists (length pre), scene. split; [exact Hnth |]. split.
      * split; [lia |]. split; [exact Hbefore |].
        apply orb_true_iff in Hcond. destruct Hcond as [Hlt | Hlast].
        -- left. unfold cumulativeEnd. rewrite Hend. apply ltb_true. exact Hlt.
        -- right. apply Z.eqb_eq in Hlast. unfold sequenceLength in Hlast. lia.
      * unfold stateAt.
        destruct (Num.ltb 0 (duration scene)) eqn:Hpos; [| reflexivity].
        apply ltb_true in Hpos. rewrite (divide_positive _ _ Hpos). reflexivity.
    + apply orb_false_iff in Hcond. destruct Hcond as [Hge Hnotlast].
      apply ltb_false in Hge. apply Z.eqb_neq in Hnotlast.
      unfold sequenceLength in Hnotlast.
      assert (remaining' <> []) as Hne'.
      { intro Hnil. subst remaining'. simpl in Hlen. lia. }
      specialize (IH (pre ++ [scene])).
      rewrite length_app in IH. simpl length in IH.
      replace (length pre + 1)%nat with (S (length pre)) in IH by lia.
      rewrite Hend, Nat2Z.inj_succ in IH. unfold Z.succ in IH.
      apply IH.
      * rewrite <- app_assoc. exact Hsplit.
      * exact Hne'.
      * intros j Hj. destruct (Nat.eq_dec j (length pre)) as [-> | Hneq].
        -- unfold cumulativeEnd. rewrite Hend. exact Hge.
        -- apply Hbefore. lia.
Qed.

(** The resolver on a catalog that is not empty. *)
Lemma getSceneState_active :
  scenes <> [] ->
  exists k scene,
    nth_error scenes k = Some scene /\
    activeAt scenes elapsed k /\
    getSceneState scenes elapsed
    = Some (stateAt elapsed k (offsetBefore scenes k) scene).
Proof.
  intro Hne.
  apply (sceneLoop_active scenes []); [reflexivity | exact Hne |].
  intros j Hj. simpl in Hj. lia.
Qed.

End ResolverFacts.

Lemma durationAt_nth (scenes : list SceneDescriptor) (k : nat) (scene : SceneDescriptor) :
  nth_error scenes k = Some scene -> durationAt scenes (Z.of_nat k) = duration scene.
Proof.
  intro H. unfold durationAt.
  destruct (Z.of_nat k <? 0)%Z eqn:E; [apply Z.ltb_lt in E; lia |].
  rewrite Nat2Z.id. apply nth_error_nth.
  rewrite nth_error_map, H. reflexivity.
Qed.

(** On the empty catalog the loop does not run. *)
Lemma getSceneState_empty (elapsed : Q) :
  getSceneState [] elapsed
  = Some {| index := -1; sceneElapsed := 0; totalElapsed := elapsed; progress := 1 |}.
Proof. reflexivity. Qed.

(** The resolver always has a result: the division is never by zero. *)
Lemma getSceneState_total (scenes : list SceneDescriptor) (elapsed : Q) :
  exists st, getSceneState scenes elapsed = Some st.
Proof.
  destruct scenes as [| scene scenes'].
  - eexists. apply getSceneState_empty.
  - destruct (getSceneState_active (scene :: scenes') elapsed) as (k & s & _ & _ & H);
      [discriminate |].
    eexists. exact H.
Qed.


Lemma sampleCatalog_positive : positiveDurations sampleCatalog.
Proof.
  unfold positiveDurations, sampleCatalog.
  repeat (constructor; [reflexivity |]). constructor.
Qed.

(** ** Runs of the resolver *)

Example getSceneState_sample_20 :
  getSceneState sampleCatalog 20
  = Some {| index := 2; sceneElapsed := 7; totalElapsed := 20; progress := 7 # 8 |}.
Proof. reflexivity. Qed.

(** A scene starts at the cumulative end of the one before it. *)
Example getSceneState_sample_13 :
  getSceneState sampleCatalog 13
  = Some {| index := 2; sceneElapsed := 0; totalElapsed := 13; progress := 0 # 8 |}.
Proof. reflexivity. Qed.

Example getSceneState_sample_60 :
  getSceneState sampleCatalog 60
  = Some {| index := 7; sceneElapsed := 8; totalElapsed := 60; progress := 8 # 8 |}.
Proof. reflexivity. Qed.

Example getSceneState_still_5 :
  getSceneState stillCatalog 5
  = Some {| index := 1; sceneElapsed := 0; totalElapsed := 5; progress := 0 |}.
Proof. reflexivity. Qed.





(** ** The playback clock *)

Section ClockFacts.

Variable TOTAL : Q.

Lemma clockEffect_phase (st : Player) :
  playbackState (clockEffect st) = playbackState st.
Proof. unfold clockEffect. destruct (isRunning st); reflexivity. Qed.

Lemma clockEffect_elapsed (st : Player) :
  elapsed (clockEffect st) = elapsed st.
Proof. unfold clockEffect. destruct (isRunning st); reflexivity. Qed.

Lemma dispatch_phase (ev : Event) (st : Player) :
  playbackState (dispatch TOTAL ev st) = playbackState (handle TOTAL ev st).
Proof.
  unfold dispatch.
  destruct (samePhase _ _); [reflexivity | apply clockEffect_phase].
Qed.

Lemma dispatch_elapsed (ev : Event) (st : Player) :
  elapsed (dispatch TOTAL ev st) = elapsed (handle TOTAL ev st).
Proof.
  unfold dispatch.
  destruct (samePhase _ _); [reflexivity | apply clockEffect_elapsed].
Qed.

(** The frame update clamps the elapsed time. *)
Lemma step_clamped (timestamp : Q) (st : Player) :
  elapsed (step TOTAL timestamp st) <= TOTAL.
Proof. simpl. apply Q.le_min_r. Qed.

(** A frame that is stamped in order does not go back in time. *)
Lemma delta_nonneg (timestamp : Q) (st : Player) :
  inOrder st timestamp -> 0 <= (timestamp - baseline st timestamp) / 1000.
Proof.
  unfold inOrder, baseline. intro H.
  assert (forall x, 0 <= x -> 0 <= x / 1000) as Hdiv.
  { intros x Hx. unfold Qdiv. apply Qmult_le_0_compat; [exact Hx |].
    apply Qinv_le_0_compat. discriminate. }
  apply Hdiv.
  destruct (lastTimestampRef st) as [previous |]; [| lra].
  destruct (Qeq_bool previous 0); lra.
Qed.

(** A frame at the total leaves the elapsed time there. *)
Lemma step_at_total (timestamp : Q) (st : Player) :
  elapsed st == TOTAL -> inOrder st timestamp ->
  elapsed (step TOTAL timestamp st) == TOTAL /\
  playbackState (step TOTAL timestamp st) = complete.
Proof.
  intros Hat Hord. pose proof (delta_nonneg timestamp st Hord) as Hdelta.
  assert (elapsed (step TOTAL timestamp st) == TOTAL) as Hnext.
  { simpl. apply Q.min_r. lra. }
  split; [exact Hnext |].
  simpl in *.
  destruct (Num.geb _ TOTAL) eqn:E; [reflexivity |].
  exfalso. assert (Num.geb (Qmin (elapsed st + (timestamp - baseline st timestamp) / 1000) TOTAL) TOTAL = true) as Hge.
  { apply geb_true. rewrite Hnext. apply Qle_refl. }
  congruence.
Qed.

(** In every state a run reaches, a complete phase means that the elapsed
    time is the total. *)
Lemma complete_at_total (st : Player) :
  reachable TOTAL st -> playbackState st = complete -> elapsed st == TOTAL.
Proof.
  induction 1 as [| st ev Hreach IH Hadm]; [discriminate |].
  rewrite dispatch_phase, dispatch_elapsed.
  destruct ev as [timestamp | | |]; simpl handle.
  - intro Hphase.
    destruct (Num.geb (elapsed (step TOTAL timestamp st)) TOTAL) eqn:E.
    + apply geb_true in E. apply Qle_antisym; [apply step_clamped | exact E].
    + simpl in Hphase, E. rewrite E in Hphase.
      apply (step_at_total timestamp st (IH Hphase) Hadm).
  - discriminate.
  - discriminate.
  - unfold handlePauseToggle.
    destruct (playbackState st) eqn:P; simpl.
    + destruct (Num.ltb (elapsed st) TOTAL); simpl; rewrite ?P; discriminate.
    + discriminate.
    + rewrite P. exact IH.
Qed.

End ClockFacts.

(** C4.  The frame update clamps the elapsed time to at most the total
    duration.  Once the phase is complete the elapsed time is the total
    duration, and a further frame callback leaves it unchanged and the phase
    complete.  (Frames are stamped in order, as the host does.) *)
Theorem clock_idempotent_at_completion (TOTAL : Q) (st : Player) (timestamp : Q) :
  elapsed (step TOTAL timestamp st) <= TOTAL /\
  (reachable TOTAL st -> playbackState st = complete -> inOrder st timestamp ->
   elapsed st == TOTAL /\
   elapsed (step TOTAL timestamp st) == elapsed st /\
   playbackState (step TOTAL timestamp st) = complete).
Proof.
  split; [apply step_clamped |].
  intros Hreach Hphase Hord.
  pose proof (complete_at_total TOTAL st Hreach Hphase) as Hat.
  destruct (step_at_total TOTAL timestamp st Hat Hord) as (Hnext & Hdone).
  split; [exact Hat |]. split; [| exact Hdone].
  rewrite Hnext, Hat. reflexivity.
Qed.

Example finishedPlayer_run :
  finishedPlayer
  = {| playbackState := complete; elapsed := 60; mute := false;
       lastTimestampRef := None |}.
Proof. reflexivity. Qed.

(** The order of the timestamps matters: a frame stamped one second before
    the baseline would take a second off the elapsed time. *)
Example step_stamped_backwards :
  elapsed (step 60 4000 {| playbackState := complete; elapsed := 60; mute := false;
                           lastTimestampRef := Some 5000 |}) == 59.
Proof. reflexivity. Qed.

Lemma finishedPlayer_reachable : reachable 60 finishedPlayer.
Proof.
  unfold finishedPlayer.
  repeat apply reachable_dispatch; try apply reachable_initial.
  - exact I.
  - exact I.
  - vm_compute. discriminate.
Qed.

Lemma clock_idempotent_at_completion_witness :
  elapsed finishedPlayer == 60 /\
  elapsed (step 60 70016 finishedPlayer) == elapsed finishedPlayer /\
  playbackState (step 60 70016 finishedPlayer) = complete.
Proof.
  apply (clock_idempotent_at_completion 60 finishedPlayer 70016).
  - exact finishedPlayer_reachable.
  - reflexivity.
  - exact I.
Defined.

(** ** The transport commands *)

(** C5.  The transport commands are total functions of the state of the
    player.  Start and restart set the elapsed time to 0 and the phase to
    running, from every state.  The pause toggle moves running to idle, moves
    idle to running when the elapsed time is less than the total duration,
    and returns the state unchanged in every other case, the complete phase
    included. *)
Theorem transport_commands_total (TOTAL : Q) (st : Player) :
  (elapsed (handleStart st) = 0 /\ playbackState (handleStart st) = running) /\
  (elapsed (handleReplay st) = 0 /\ playbackState (handleReplay st) = running) /\
  (playbackState st = running ->
   playbackState (handlePauseToggle TOTAL st) = idle /\
   elapsed (handlePauseToggle TOTAL st) = elapsed st) /\
  (playbackState st = idle -> elapsed st < TOTAL ->
   playbackState (handlePauseToggle TOTAL st) = running /\
   elapsed (handlePauseToggle TOTAL st) = elapsed st) /\
  (playbackState st = idle -> TOTAL <= elapsed st ->
   handlePauseToggle TOTAL st = st) /\
  (playbackState st = complete -> handlePauseToggle TOTAL st = st).
Proof.
  split; [split; reflexivity |]. split; [split; reflexivity |].
  unfold handlePauseToggle. split; [| split; [| split]].
  - intros ->. split; reflexivity.
  - intros -> Hlt. apply ltb_true in Hlt. rewrite Hlt. split; reflexivity.
  - intros Hphase Hge. rewrite Hphase. apply ltb_false in Hge. rewrite Hge. reflexivity.
  - intros Hphase. rewrite Hphase. reflexivity.
Qed.

Lemma transport_commands_total_witness :
  (playbackState (handlePauseToggle 60 (handleStart pausedPlayer)) = idle /\
   elapsed (handlePauseToggle 60 (handleStart pausedPlayer)) = elapsed (handleStart pausedPlayer)) /\
  (playbackState (handlePauseToggle 60 pausedPlayer) = running /\
   elapsed (handlePauseToggle 60 pausedPlayer) = elapsed pausedPlayer) /\
  handlePauseToggle 10 pausedPlayer = pausedPlayer /\
  handlePauseToggle 60 finishedPlayer = finishedPlayer.
Proof.
  destruct (transport_commands_total 60 (handleStart pausedPlayer))
    as (_ & _ & Hpause & _).
  destruct (transport_commands_total 60 pausedPlayer) as (_ & _ & _ & Hresume & _).
  destruct (transport_commands_total 10 pausedPlayer) as (_ & _ & _ & _ & Hpast & _).
  destruct (transport_commands_total 60 finishedPlayer) as (_ & _ & _ & _ & _ & Hdone).
  split; [| split; [| split]].
  - apply Hpause. reflexivity.
  - apply Hresume; reflexivity.
  - apply Hpast; [reflexivity | vm_compute; discriminate].
  - apply Hdone. reflexivity.
Defined.

(** ** The soundscape *)

Section SoundscapeFacts.

Import Soundscape.

Variable sin : Q -> Q.
Variable PI : Q.

Lemma crunchPulse_elsewhere (currentScene : SceneDescriptor) (sceneProgress : Q) :
  id currentScene <> "ascent"%string -> id currentScene <> "summit"%string ->
  crunchPulse sin PI currentScene sceneProgress = 0.
Proof.
  intros Hascent Hsummit. unfold crunchPulse.
  apply String.eqb_neq in Hascent, Hsummit.
  rewrite Hascent, Hsummit. reflexivity.
Qed.

Lemma crunchPulse_nonzero (currentScene : SceneDescriptor) (sceneProgress : Q) :
  ~ crunchPulse sin PI currentScene sceneProgress == 0 ->
  id currentScene = "ascent"%string \/ id currentScene = "summit"%string.
Proof.
  unfold crunchPulse. intro Hnz.
  destruct (id currentScene =? "ascent")%string eqn:Ea;
    [left; apply String.eqb_eq; exact Ea |].
  destruct (id currentScene =? "summit")%string eqn:Es;
    [right; apply String.eqb_eq; exact Es |].
  exfalso. apply Hnz. reflexivity.
Qed.

End SoundscapeFacts.

(** C6.  The crunch-pulse term that the scene effect adds to the targets of
    the shimmer and pulse gains is nonzero only when the id of the active
    scene is ascent or summit; for every other id it is 0 at every progress,
    and the two targets are the gains of the tone plus 0. *)
Theorem crunch_only_on_ascent_and_summit
        (sin : Q -> Q) (PI : Q) (currentScene : SceneDescriptor) (sceneProgress : Q) :
  (~ Soundscape.crunchPulse sin PI currentScene sceneProgress == 0 ->
   id currentScene = "ascent"%string \/ id currentScene = "summit"%string) /\
  (id currentScene <> "ascent"%string -> id currentScene <> "summit"%string ->
   Soundscape.crunchPulse sin PI currentScene sceneProgress = 0 /\
   forall nodes,
     let gains := Soundscape.toneGains (tone currentScene) in
     let now := Soundscape.currentTime nodes in
     Soundscape.sceneEffect sin PI (Some nodes) currentScene sceneProgress
     = [ (Soundscape.windGain, Soundscape.cancelScheduledValues now);
         (Soundscape.windGain,
          Soundscape.setTargetAtTime (Soundscape.wind gains) now 0.5);
         (Soundscape.shimmerGain, Soundscape.cancelScheduledValues now);
         (Soundscape.shimmerGain,
          Soundscape.setTargetAtTime (Soundscape.shimmer gains + 0 * 0.3) now 0.3);
         (Soundscape.pulseGain, Soundscape.cancelScheduledValues now);
         (Soundscape.pulseGain,
          Soundscape.setTargetAtTime (Soundscape.pulse gains + 0 * 0.5) now 0.4) ]).
Proof.
  split; [apply crunchPulse_nonzero |].
  intros Hascent Hsummit.
  pose proof (crunchPulse_elsewhere sin PI currentScene sceneProgress Hascent Hsummit)
    as Hzero.
  split; [exact Hzero |].
  intros nodes gains now. unfold Soundscape.sceneEffect.
  rewrite Hzero. reflexivity.
Qed.

Lemma crunch_only_on_ascent_and_summit_witness :
  Soundscape.crunchPulse (fun x => x) 3 icefallScene 0.5 = 0.
Proof.
  apply (crunch_only_on_ascent_and_summit (fun x => x) 3 icefallScene 0.5);
    discriminate.
Defined.

(** C9.  With the audio engine initialised, the effect on play and mute
    cancels the pending ramp of the master gain and starts one from the
    current time: towards 0.0001 with time constant 0.4 when mute is set or
    playback is not running, towards 0.45 with time constant 0.2 otherwise.
    The time constant of the fade-out is larger than the one of the
    fade-in. *)
Theorem master_gain_ramps (nodes : Soundscape.InternalNodes) (isPlaying mute : bool) :
  let now := Soundscape.currentTime nodes in
  (mute = true \/ isPlaying = false ->
   Soundscape.masterEffect (Some nodes) isPlaying mute
   = [ (Soundscape.masterGain, Soundscape.cancelScheduledValues now);
       (Soundscape.masterGain, Soundscape.setTargetAtTime 0.0001 now 0.4) ]) /\
  (mute = false -> isPlaying = true ->
   Soundscape.masterEffect (Some nodes) isPlaying mute
   = [ (Soundscape.masterGain, Soundscape.cancelScheduledValues now);
       (Soundscape.masterGain, Soundscape.setTargetAtTime 0.45 now 0.2) ]) /\
  (forall targetOut startOut constantOut targetIn startIn constantIn,
      In (Soundscape.masterGain,
          Soundscape.setTargetAtTime targetOut startOut constantOut)
         (Soundscape.masterEffect (Some nodes) false mute) ->
      In (Soundscape.masterGain,
          Soundscape.setTargetAtTime targetIn startIn constantIn)
         (Soundscape.masterEffect (Some nodes) true false) ->
      constantIn < constantOut /\ targetOut < targetIn).
Proof.
  intro now. split; [| split].
  - intros [-> | ->]; unfold Soundscape.masterEffect.
    + reflexivity.
    + rewrite orb_true_r. reflexivity.
  - intros -> ->. reflexivity.
  - intros targetOut startOut constantOut targetIn startIn constantIn Hout Hin.
    unfold Soundscape.masterEffect in Hout, Hin.
    rewrite orb_true_r in Hout. simpl in Hout, Hin.
    destruct Hout as [Hout | [Hout | []]]; [discriminate |].
    destruct Hin as [Hin | [Hin | []]]; [discriminate |].
    injection Hout as <- _ <-. injection Hin as <- _ <-.
    split; reflexivity.
Qed.

Lemma master_gain_ramps_witness :
  Soundscape.masterEffect (Some sampleNodes) true true
  = [ (Soundscape.masterGain, Soundscape.cancelScheduledValues 2);
      (Soundscape.masterGain, Soundscape.setTargetAtTime 0.0001 2 0.4) ] /\
  Soundscape.masterEffect (Some sampleNodes) true false
  = [ (Soundscape.masterGain, Soundscape.cancelScheduledValues 2);
      (Soundscape.masterGain, Soundscape.setTargetAtTime 0.45 2 0.2) ] /\
  0.2 < 0.4.
Proof.
  destruct (master_gain_ramps sampleNodes true true) as (Hsilent & _ & _).
  destruct (master_gain_ramps sampleNodes true false) as (_ & Haudible & Hslower).
  split; [apply Hsilent; left; reflexivity |].
  split; [apply Haudible; reflexivity |].
  apply (Hslower 0.0001 2 0.4 0.45 2 0.2).
  - right. left. reflexivity.
  - right. left. reflexivity.
Defined.

(** ** More on the scene resolver *)









(** ** The active item of the timeline *)

Lemma activeItems_nth (scenes : list SceneDescriptor) (currentScene : SceneDescriptor) (j : nat) :
  nth_error (Timeline.activeItems scenes currentScene) j
  = option_map (Timeline.isActive currentScene) (nth_error scenes j).
Proof. unfold Timeline.activeItems. apply nth_error_map. Qed.

(** X8.  When the ids of the catalog are distinct, the timeline marks one
    item as active: the one at the position of the current scene. *)
Theorem timeline_one_active
        (scenes : list SceneDescriptor) (k : nat) (currentScene : SceneDescriptor) :
  NoDup (map id scenes) ->
  nth_error scenes k = Some currentScene ->
  forall j,
    nth_error (Timeline.activeItems scenes currentScene) j = Some true <-> j = k.
Proof.
  intros Hdistinct Hk j. rewrite activeItems_nth. split.
  - intro Hj. destruct (nth_error scenes j) as [scene |] eqn:E; [| discriminate].
    simpl in Hj. injection Hj as Hj. unfold Timeline.isActive in Hj.
    apply String.eqb_eq in Hj.
    rewrite NoDup_nth_error in Hdistinct. apply Hdistinct.
    + rewrite length_map. apply nth_error_Some. congruence.
    + rewrite !nth_error_map, E, Hk. simpl. congruence.
  - intros ->. rewrite Hk. simpl. unfold Timeline.isActive.
    rewrite String.eqb_refl. reflexivity.
Qed.

Lemma sampleCatalog_distinct : NoDup (map id sampleCatalog).
Proof.
  simpl. repeat (constructor; [simpl; intuition discriminate |]). constructor.
Qed.

Lemma timeline_one_active_witness :
  nth_error (Timeline.activeItems sampleCatalog icefallScene) 2 = Some true /\
  (nth_error (Timeline.activeItems sampleCatalog icefallScene) 5 = Some true -> 5 = 2)%nat.
Proof.
  pose proof (timeline_one_active sampleCatalog 2 icefallScene
                sampleCatalog_distinct eq_refl) as Honly.
  split.
  - apply (Honly 2%nat). reflexivity.
  - apply (Honly 5%nat).
Defined.

(** ** More on the playback clock *)

Section ClockInvariants.

Variable TOTAL : Q.

Lemma geb_false (x y : Q) : Num.geb x y = false <-> x < y.
Proof.
  unfold Num.geb. rewrite negb_false_iff. apply ltb_true.
Qed.

Lemma handlePauseToggle_elapsed (st : Player) :
  elapsed (handlePauseToggle TOTAL st) = elapsed st.
Proof.
  unfold handlePauseToggle. destruct (playbackState st); try reflexivity.
  destruct (Num.ltb (elapsed st) TOTAL); reflexivity.
Qed.

(** The elapsed time of a run stays between 0 and the total. *)
Lemma reachable_bounds (st : Player) :
  0 <= TOTAL -> reachable TOTAL st -> 0 <= elapsed st <= TOTAL.
Proof.
  intros Htotal Hreach.
  induction Hreach as [| st ev Hreach IH Hadm].
  - simpl. split; [apply Qle_refl | exact Htotal].
  - rewrite dispatch_elapsed. destruct ev as [timestamp | | |]; simpl handle.
    + split; [| apply step_clamped].
      pose proof (delta_nonneg timestamp st Hadm) as Hdelta.
      simpl. apply Q.min_glb; lra.
    + simpl. split; [apply Qle_refl | exact Htotal].
    + simpl. split; [apply Qle_refl | exact Htotal].
    + rewrite handlePauseToggle_elapsed. exact IH.
Qed.

(** With a positive total, a run is at the total only when it is complete. *)
Lemma total_is_complete (st : Player) :
  0 < TOTAL -> reachable TOTAL st -> elapsed st == TOTAL -> playbackState st = complete.
Proof.
  intros Htotal Hreach.
  induction Hreach as [| st ev Hreach IH Hadm].
  - simpl. intro H. rewrite <- H in Htotal. exfalso. apply (Qlt_irrefl 0 Htotal).
  - rewrite dispatch_phase, dispatch_elapsed.
    destruct ev as [timestamp | | |]; simpl handle.
    + intro Hat. simpl.
      destruct (Num.geb _ TOTAL) eqn:E; [reflexivity |].
      apply geb_false in E. simpl in Hat. rewrite Hat in E.
      exfalso. apply (Qlt_irrefl _ E).
    + simpl. intro H. rewrite <- H in Htotal. exfalso. apply (Qlt_irrefl 0 Htotal).
    + simpl. intro H. rewrite <- H in Htotal. exfalso. apply (Qlt_irrefl 0 Htotal).
    + rewrite handlePauseToggle_elapsed. intro Hat. specialize (IH Hat).
      unfold handlePauseToggle. rewrite IH. exact IH.
Qed.

(** A state of a run that is not complete is before the total. *)
Lemma not_complete_before_total (st : Player) :
  0 < TOTAL -> reachable TOTAL st -> playbackState st <> complete ->
  elapsed st < TOTAL.
Proof.
  intros Htotal Hreach Hphase.
  destruct (reachable_bounds st (Qlt_le_weak _ _ Htotal) Hreach) as (_ & Hle).
  destruct (Qlt_le_dec (elapsed st) TOTAL) as [Hlt | Hge]; [exact Hlt |].
  exfalso. apply Hphase. apply (total_is_complete st Htotal Hreach).
  apply Qle_antisym; assumption.
Qed.

End ClockInvariants.

(** X9.  When the total is not negative, the elapsed time of every state that
    a run reaches lies between 0 and the total. *)
Theorem clock_elapsed_in_range (TOTAL : Q) (st : Player) :
  0 <= TOTAL -> reachable TOTAL st -> 0 <= elapsed st <= TOTAL.
Proof. apply reachable_bounds. Qed.

Lemma clock_elapsed_in_range_witness : 0 <= elapsed finishedPlayer <= 60.
Proof.
  apply (clock_elapsed_in_range 60 finishedPlayer).
  - vm_compute. discriminate.
  - exact finishedPlayer_reachable.
Defined.

(** X10.  When the total is positive, a state that a run reaches is complete
    exactly when its elapsed time is the total.  The condition of the resume
    branch therefore holds in every idle state of a run: the pause toggle
    always resumes it. *)
Theorem clock_complete_iff_at_total (TOTAL : Q) (st : Player) :
  0 < TOTAL -> reachable TOTAL st ->
  (playbackState st = complete <-> elapsed st == TOTAL) /\
  (playbackState st = idle ->
   playbackState (handlePauseToggle TOTAL st) = running).
Proof.
  intros Htotal Hreach. split.
  - split; [apply complete_at_total | apply total_is_complete]; assumption.
  - intro Hidle.
    assert (elapsed st < TOTAL) as Hlt
      by (apply not_complete_before_total; [assumption | assumption | congruence]).
    unfold handlePauseToggle. rewrite Hidle.
    apply ltb_true in Hlt. rewrite Hlt. reflexivity.
Qed.

Lemma clock_complete_iff_at_total_witness :
  (playbackState finishedPlayer = complete <-> elapsed finishedPlayer == 60) /\
  (playbackState finishedPlayer = idle ->
   playbackState (handlePauseToggle 60 finishedPlayer) = running).
Proof.
  apply (clock_complete_iff_at_total 60 finishedPlayer).
  - reflexivity.
  - exact finishedPlayer_reachable.
Defined.

(** X11.  While the clock runs it does not rewind: a frame stamped in order
    leaves the elapsed time of a state of a run where it was or further. *)
Theorem clock_frame_never_rewinds (TOTAL : Q) (st : Player) (timestamp : Q) :
  0 <= TOTAL -> reachable TOTAL st -> inOrder st timestamp ->
  elapsed st <= elapsed (dispatch TOTAL (Frame timestamp) st).
Proof.
  intros Htotal Hreach Hord.
  destruct (reachable_bounds TOTAL st Htotal Hreach) as (_ & Hle).
  pose proof (delta_nonneg timestamp st Hord) as Hdelta.
  rewrite dispatch_elapsed. simpl. apply Q.min_glb; lra.
Qed.

Lemma clock_frame_never_rewinds_witness :
  elapsed finishedPlayer <= elapsed (dispatch 60 (Frame 70016) finishedPlayer).
Proof.
  apply (clock_frame_never_rewinds 60 finishedPlayer 70016).
  - vm_compute. discriminate.
  - exact finishedPlayer_reachable.
  - exact I.
Defined.

Lemma playingRun_reachable : reachable 60 playingRun.
Proof.
  unfold playingRun.
  repeat apply reachable_dispatch; try apply reachable_initial.
  - exact I.
  - exact I.
  - vm_compute. discriminate.
Qed.

Lemma pausedRun_reachable : reachable 60 pausedRun.
Proof.
  unfold pausedRun. apply reachable_dispatch; [| exact I].
  exact playingRun_reachable.
Qed.

Lemma step_phase (TOTAL : Q) (timestamp : Q) (st : Player) :
  playbackState (step TOTAL timestamp st)
  = if Num.geb (elapsed (step TOTAL timestamp st)) TOTAL then complete
    else playbackState st.
Proof. reflexivity. Qed.

(** A frame without a baseline only sets the baseline. *)
Lemma step_without_baseline (TOTAL : Q) (st : Player) (timestamp : Q) :
  lastTimestampRef st = None -> elapsed st < TOTAL ->
  elapsed (step TOTAL timestamp st) == elapsed st /\
  playbackState (step TOTAL timestamp st) = playbackState st /\
  lastTimestampRef (step TOTAL timestamp st) = Some timestamp.
Proof.
  intros Hnone Hlt.
  assert (elapsed (step TOTAL timestamp st) == elapsed st) as Hsame.
  { simpl. unfold baseline. rewrite Hnone.
    assert (elapsed st + (timestamp - timestamp) / 1000 == elapsed st) as ->
      by field.
    apply Q.min_l. lra. }
  split; [exact Hsame |]. split; [| reflexivity].
  rewrite step_phase.
  assert (Num.geb (elapsed (step TOTAL timestamp st)) TOTAL = false) as ->
    by (apply geb_false; rewrite Hsame; exact Hlt).
  reflexivity.
Qed.

(** X13.  A pause does not let the clock jump: when a running state of a run
    is paused and resumed, the first frame afterwards leaves the elapsed time
    where it was at the pause, however late it is stamped, and the player
    running. *)
Theorem clock_pause_resume_no_jump (TOTAL : Q) (st : Player) (timestamp : Q) :
  0 < TOTAL -> reachable TOTAL st -> playbackState st = running ->
  let resumed := dispatch TOTAL PauseToggle (dispatch TOTAL PauseToggle st) in
  playbackState resumed = running /\
  elapsed (dispatch TOTAL (Frame timestamp) resumed) == elapsed st /\
  playbackState (dispatch TOTAL (Frame timestamp) resumed) = running.
Proof.
  intros Htotal Hreach Hrun resumed.
  assert (elapsed st < TOTAL) as Hlt
    by (apply not_complete_before_total; [assumption | assumption | congruence]).
  apply ltb_true in Hlt as Hltb.
  assert (resumed = {| playbackState := running; elapsed := elapsed st;
                       mute := mute st; lastTimestampRef := None |}) as Hresumed.
  { unfold resumed. destruct st as [phase e m l].
    cbn [playbackState elapsed mute] in *. subst phase.
    unfold dispatch at 2. cbn [handle handlePauseToggle playbackState samePhase].
    cbn [clockEffect isRunning playbackState elapsed mute].
    unfold dispatch. cbn [handle handlePauseToggle playbackState elapsed].
    rewrite Hltb. reflexivity. }
  rewrite Hresumed. split; [reflexivity |].
  rewrite dispatch_phase, dispatch_elapsed. simpl handle.
  destruct (step_without_baseline TOTAL
              {| playbackState := running; elapsed := elapsed st;
                 mute := mute st; lastTimestampRef := None |} timestamp)
    as (He & Hp & _); [reflexivity | exact Hlt |].
  split; [exact He | exact Hp].
Qed.

Lemma clock_pause_resume_no_jump_witness :
  let resumed := dispatch 60 PauseToggle (dispatch 60 PauseToggle playingRun) in
  playbackState resumed = running /\
  elapsed (dispatch 60 (Frame 999000) resumed) == elapsed playingRun /\
  playbackState (dispatch 60 (Frame 999000) resumed) = running.
Proof.
  apply (clock_pause_resume_no_jump 60 playingRun 999000).
  - reflexivity.
  - exact playingRun_reachable.
  - reflexivity.
Defined.

(** X14.  Completion is left only by a start or a restart: from a complete
    state these give a running player at elapsed 0, and a frame or the pause
    toggle leave the player complete. *)
Theorem completion_left_only_by_restart (TOTAL : Q) (st : Player) (ev : Event) :
  playbackState st = complete ->
  match ev with
  | Start | Replay =>
      playbackState (dispatch TOTAL ev st) = running /\
      elapsed (dispatch TOTAL ev st) = 0
  | Frame _ | PauseToggle =>
      playbackState (dispatch TOTAL ev st) = complete
  end.
Proof.
  intro Hdone. destruct ev as [timestamp | | |];
    rewrite ?dispatch_phase, ?dispatch_elapsed; simpl handle.
  - rewrite step_phase, Hdone. destruct (Num.geb _ TOTAL); reflexivity.
  - split; reflexivity.
  - split; reflexivity.
  - unfold handlePauseToggle. rewrite Hdone. exact Hdone.
Qed.

Lemma completion_left_only_by_restart_witness :
  playbackState (dispatch 60 PauseToggle finishedPlayer) = complete /\
  (playbackState (dispatch 60 Replay finishedPlayer) = running /\
   elapsed (dispatch 60 Replay finishedPlayer) = 0).
Proof.
  split.
  - apply (completion_left_only_by_restart 60 finishedPlayer PauseToggle). reflexivity.
  - apply (completion_left_only_by_restart 60 finishedPlayer Replay). reflexivity.
Defined.

(** X16.  With a positive total, the width of the progress bar is defined in
    every state of a run and lies between 0 and 100 percent; it is 100 when
    the run is complete. *)
Theorem progress_bar_in_range (TOTAL : Q) (st : Player) :
  0 < TOTAL -> reachable TOTAL st ->
  exists width,
    Timeline.progressWidth (elapsed st) TOTAL = Some width /\
    0 <= width <= 100 /\
    (playbackState st = complete -> width == 100).
Proof.
  intros Htotal Hreach.
  destruct (reachable_bounds TOTAL st (Qlt_le_weak _ _ Htotal) Hreach) as (Hlow & Hhigh).
  exists (elapsed st / TOTAL * 100). split.
  - unfold Timeline.progressWidth. rewrite (divide_positive _ _ Htotal). reflexivity.
  - assert (0 <= elapsed st / TOTAL) as Hl
      by (apply Qle_shift_div_l; [exact Htotal | lra]).
    assert (elapsed st / TOTAL <= 1) as Hh
      by (apply Qle_shift_div_r; [exact Htotal | lra]).
    split; [split; lra |].
    intro Hdone. rewrite (complete_at_total TOTAL st Hreach Hdone).
    field. lra.
Qed.

Lemma progress_bar_in_range_witness :
  exists width,
    Timeline.progressWidth (elapsed finishedPlayer) 60 = Some width /\
    0 <= width <= 100 /\
    (playbackState finishedPlayer = complete -> width == 100).
Proof.
  apply (progress_bar_in_range 60 finishedPlayer).
  - reflexivity.
  - exact finishedPlayer_reachable.
Defined.

(** X17.  When the transport of a state of a run reads Resume, either the run
    is paused after its start, and the button resumes it, or the run is
    complete, and the button changes nothing. *)
Theorem resume_button_cases (TOTAL : Q) (st : Player) :
  0 < TOTAL -> reachable TOTAL st ->
  controls st = Transport "Resume" ->
  (playbackState st = idle /\ 0 < elapsed st /\
   playbackState (handlePauseToggle TOTAL st) = running) \/
  (playbackState st = complete /\ handlePauseToggle TOTAL st = st).
Proof.
  intros Htotal Hreach Hcontrols.
  destruct (reachable_bounds TOTAL st (Qlt_le_weak _ _ Htotal) Hreach) as (Hlow & _).
  unfold controls, isIdle, isRunning in Hcontrols.
  destruct (playbackState st) eqn:Hphase; simpl in Hcontrols.
  - left. split; [reflexivity |].
    destruct (Qeq_bool (elapsed st) 0) eqn:E; [discriminate |].
    split.
    + apply Qle_lt_or_eq in Hlow. destruct Hlow as [Hpos | Hzero]; [exact Hpos |].
      symmetry in Hzero. apply Qeq_eq_bool in Hzero. congruence.
    + assert (elapsed st < TOTAL) as Hlt
        by (apply not_complete_before_total; [assumption | assumption | congruence]).
      unfold handlePauseToggle. rewrite Hphase.
      apply ltb_true in Hlt. rewrite Hlt. reflexivity.
  - discriminate.
  - right. split; [reflexivity |].
    unfold handlePauseToggle. rewrite Hphase. reflexivity.
Qed.

Lemma resume_button_cases_witness :
  (playbackState pausedRun = idle /\ 0 < elapsed pausedRun /\
   playbackState (handlePauseToggle 60 pausedRun) = running) \/
  (playbackState pausedRun = complete /\ handlePauseToggle 60 pausedRun = pausedRun).
Proof.
  apply (resume_button_cases 60 pausedRun).
  - reflexivity.
  - exact pausedRun_reachable.
  - reflexivity.
Defined.

(** ** The life of the audio engine *)

(** An event keeps the nodes that exist. *)
Lemma react_keeps_nodes (ev : Engine.EngineEvent) (eng : Engine.Engine)
      (nodes : Soundscape.InternalNodes) :
  Engine.nodesRef eng = Some nodes -> Engine.nodesRef (Engine.react ev eng) = Some nodes.
Proof.
  intro H. destruct ev as [created isPlaying mute | created]; simpl.
  - unfold Engine.playEffect, Engine.ensureContext.
    destruct (negb isPlaying || mute); [exact H |]. rewrite H. exact H.
  - unfold Engine.handleInteraction, Engine.ensureContext.
    destruct (Engine.initialised eng); [exact H |]. rewrite H. exact H.
Qed.

Lemma runEngine_keeps_nodes (events : list Engine.EngineEvent) (eng : Engine.Engine)
      (nodes : Soundscape.InternalNodes) :
  Engine.nodesRef eng = Some nodes ->
  Engine.nodesRef (Engine.runEngine events eng) = Some nodes.
Proof.
  revert eng. induction events as [| ev events IH]; intros eng H; [exact H |].
  simpl. apply IH. apply react_keeps_nodes. exact H.
Qed.

(** The state cell tells whether the ref is set. *)
Lemma react_initialised (ev : Engine.EngineEvent) (eng : Engine.Engine) :
  (Engine.initialised eng = true <-> Engine.nodesRef eng <> None) ->
  (Engine.initialised (Engine.react ev eng) = true
   <-> Engine.nodesRef (Engine.react ev eng) <> None).
Proof.
  intro H. destruct ev as [created isPlaying mute | created]; simpl.
  - unfold Engine.playEffect, Engine.ensureContext.
    destruct (negb isPlaying || mute); [exact H |].
    destruct (Engine.nodesRef eng) eqn:N; simpl.
    + rewrite N. exact H.
    + split; [discriminate | reflexivity].
  - unfold Engine.handleInteraction, Engine.ensureContext.
    destruct (Engine.initialised eng) eqn:E; [rewrite E; exact H |].
    destruct (Engine.nodesRef eng) eqn:N; simpl.
    + rewrite E, N. exact H.
    + split; [discriminate | reflexivity].
Qed.

Lemma runEngine_initialised (events : list Engine.EngineEvent) (eng : Engine.Engine) :
  (Engine.initialised eng = true <-> Engine.nodesRef eng <> None) ->
  (Engine.initialised (Engine.runEngine events eng) = true
   <-> Engine.nodesRef (Engine.runEngine events eng) <> None).
Proof.
  revert eng. induction events as [| ev events IH]; intros eng H; [exact H |].
  simpl. apply IH. apply react_initialised. exact H.
Qed.

(** X20.  The audio engine is created once: after any sequence of play
    effects and interactions the state cell is set exactly when the ref
    holds nodes, and nodes that the ref holds are the ones it holds after
    any further events. *)
Theorem engine_created_once (events more : list Engine.EngineEvent) :
  let eng := Engine.runEngine events Engine.initialEngine in
  (Engine.initialised eng = true <-> Engine.nodesRef eng <> None) /\
  (forall nodes,
      Engine.nodesRef eng = Some nodes ->
      Engine.nodesRef (Engine.runEngine more eng) = Some nodes).
Proof.
  intro eng. split.
  - apply runEngine_initialised. simpl. split; [discriminate | congruence].
  - intros nodes H. apply runEngine_keeps_nodes. exact H.
Qed.

Lemma engine_created_once_witness :
  Engine.nodesRef
    (Engine.runEngine [Engine.PlayEffect laterNodes true false; Engine.Interaction laterNodes]
                      (Engine.runEngine [Engine.Interaction sampleNodes] Engine.initialEngine))
  = Some sampleNodes.
Proof.
  apply (engine_created_once [Engine.Interaction sampleNodes]
           [Engine.PlayEffect laterNodes true false; Engine.Interaction laterNodes]).
  reflexivity.
Defined.

(** X21.  Effects of a muted or paused player do not start the engine: after
    any number of them the engine is as it was at the start, and the effect
    on play and mute makes no call on the master gain. *)
Theorem silent_effects_keep_engine_off
        (events : list Engine.EngineEvent) (isPlaying mute : bool) :
  Forall (fun ev => exists created playing muted,
              ev = Engine.PlayEffect created playing muted /\
              (playing = false \/ muted = true)) events ->
  Engine.runEngine events Engine.initialEngine = Engine.initialEngine /\
  Soundscape.masterEffect
    (Engine.nodesRef (Engine.runEngine events Engine.initialEngine)) isPlaying mute = [].
Proof.
  intro Hsilent.
  assert (Engine.runEngine events Engine.initialEngine = Engine.initialEngine) as Hoff.
  { generalize Engine.initialEngine as eng.
    induction Hsilent as [| ev events (created & playing & muted & -> & Hwhy) _ IH];
      intro eng; [reflexivity |].
    simpl. unfold Engine.playEffect.
    assert (negb playing || muted = true) as ->
      by (destruct Hwhy as [-> | ->]; [reflexivity | apply orb_true_r]).
    apply IH. }
  split; [exact Hoff |]. rewrite Hoff. reflexivity.
Qed.

Lemma silent_effects_keep_engine_off_witness :
  Engine.runEngine [Engine.PlayEffect sampleNodes true true;
                    Engine.PlayEffect sampleNodes false false] Engine.initialEngine
  = Engine.initialEngine /\
  Soundscape.masterEffect
    (Engine.nodesRef
       (Engine.runEngine [Engine.PlayEffect sampleNodes true true;
                          Engine.PlayEffect sampleNodes false false] Engine.initialEngine))
    false false = [].
Proof.
  apply (silent_effects_keep_engine_off
           [Engine.PlayEffect sampleNodes true true;
            Engine.PlayEffect sampleNodes false false] false false).
  repeat constructor.
  - exists sampleNodes, true, true. split; [reflexivity | right; reflexivity].
  - exists sampleNodes, false, false. split; [reflexivity | left; reflexivity].
Defined.

(** *** The noise buffers *)

Lemma fill_length (random : nat -> Q) (color : Noise.Color) (count i : nat) (lastOut : Q) :
  length (Noise.fill random color i count lastOut) = count.
Proof.
  revert i lastOut. induction count as [| count IH]; intros i lastOut; [reflexivity |].
  simpl. destruct color; simpl; rewrite IH; reflexivity.
Qed.

Lemma fill_white_range (random : nat -> Q) (count i : nat) (lastOut : Q) :
  (forall n, 0 <= random n /\ random n < 1) ->
  Forall (fun sample => -(1) <= sample <= 1)
         (Noise.fill random Noise.white i count lastOut).
Proof.
  intro Hrandom. revert i. induction count as [| count IH]; intro i; [constructor |].
  simpl. constructor; [| apply IH].
  destruct (Hrandom i) as (Hlow & Hhigh). split; lra.
Qed.

(** The filter of the pink noise keeps its state between -1 and 1. *)
Lemma pink_state_range (lastOut whiteSample : Q) :
  -(1) <= lastOut <= 1 -> -(1) <= whiteSample <= 1 ->
  -(1) <= (lastOut + 0.02 * whiteSample) / 1.02 <= 1.
Proof.
  intros (Hl & Hh) (Wl & Wh).
  assert (0 < 1.02) as Hpos by reflexivity.
  split.
  - apply Qle_shift_div_l; [exact Hpos | lra].
  - apply Qle_shift_div_r; [exact Hpos | lra].
Qed.

Lemma fill_pink_range (random : nat -> Q) (count i : nat) (lastOut : Q) :
  (forall n, 0 <= random n /\ random n < 1) ->
  -(1) <= lastOut <= 1 ->
  Forall (fun sample => -(3.5) <= sample <= 3.5)
         (Noise.fill random Noise.pink i count lastOut).
Proof.
  intro Hrandom. revert i lastOut.
  induction count as [| count IH]; intros i lastOut Hstate; [constructor |].
  simpl.
  assert (-(1) <= (lastOut + 0.02 * (random i * 2 - 1)) / 1.02 <= 1) as Hnext.
  { apply pink_state_range; [exact Hstate |].
    destruct (Hrandom i) as (Hlow & Hhigh). split; lra. }
  constructor; [| apply IH; exact Hnext].
  destruct Hnext as (Hl & Hh). split; lra.
Qed.

(** X22.  With random numbers in [0, 1), a noise buffer holds two seconds of
    samples (twice the sample rate); the white samples lie between -1 and 1
    and the pink samples between -3.5 and 3.5. *)
Theorem noise_buffer_bounds (random : nat -> Q) (sampleRate : nat) (color : Noise.Color) :
  (forall n, 0 <= random n /\ random n < 1) ->
  length (Noise.createNoiseBuffer random sampleRate color) = (sampleRate * 2)%nat /\
  Forall (fun sample =>
            match color with
            | Noise.white => -(1) <= sample <= 1
            | Noise.pink => -(3.5) <= sample <= 3.5
            end)
         (Noise.createNoiseBuffer random sampleRate color).
Proof.
  intro Hrandom. unfold Noise.createNoiseBuffer.
  split; [apply fill_length |].
  destruct color.
  - apply fill_white_range. exact Hrandom.
  - apply fill_pink_range; [exact Hrandom |]. split; discriminate.
Qed.

Lemma noise_buffer_bounds_witness :
  length (Noise.createNoiseBuffer sampleRandom 4 Noise.pink) = 8%nat /\
  Forall (fun sample => -(3.5) <= sample <= 3.5)
         (Noise.createNoiseBuffer sampleRandom 4 Noise.pink).
Proof.
  apply (noise_buffer_bounds sampleRandom 4 Noise.pink).
  intro n. unfold sampleRandom. destruct (Nat.even n); split; vm_compute;
    discriminate || reflexivity.
Defined.

(** ** A frame without a baseline *)

(** X24.  A frame that finds no baseline, or the baseline 0, counts no time:
    before the total it leaves the elapsed time and the phase as they are and
    only records its timestamp. *)
Theorem clock_frame_without_baseline (TOTAL : Q) (st : Player) (timestamp : Q) :
  lastTimestampRef st = None \/
  (exists previous, lastTimestampRef st = Some previous /\ previous == 0) ->
  elapsed st < TOTAL ->
  elapsed (step TOTAL timestamp st) == elapsed st /\
  playbackState (step TOTAL timestamp st) = playbackState st /\
  lastTimestampRef (step TOTAL timestamp st) = Some timestamp.
Proof.
  intros Hnone Hlt.
  assert (baseline st timestamp = timestamp) as Hbase.
  { unfold baseline. destruct Hnone as [-> | (previous & -> & Hzero)]; [reflexivity |].
    apply Qeq_eq_bool in Hzero. rewrite Hzero. reflexivity. }
  assert (elapsed (step TOTAL timestamp st) == elapsed st) as Hsame.
  { simpl. rewrite Hbase.
    assert (elapsed st + (timestamp - timestamp) / 1000 == elapsed st) as ->
      by field.
    apply Q.min_l. lra. }
  split; [exact Hsame |]. split; [| reflexivity].
  rewrite step_phase.
  assert (Num.geb (elapsed (step TOTAL timestamp st)) TOTAL = false) as ->
    by (apply geb_false; rewrite Hsame; exact Hlt).
  reflexivity.
Qed.

Lemma clock_frame_without_baseline_witness :
  elapsed (step 60 5000 pausedPlayer) == elapsed pausedPlayer /\
  playbackState (step 60 5000 pausedPlayer) = playbackState pausedPlayer /\
  lastTimestampRef (step 60 5000 pausedPlayer) = Some 5000.
Proof.
  apply (clock_frame_without_baseline 60 pausedPlayer 5000).
  - left. reflexivity.
  - reflexivity.
Defined.

(** ** The laws of the rounding *)

Module Float64Facts.

Import Float64.

Lemma pow2_pos (e : Z) : 0 < pow2 e.
Proof. unfold pow2. apply Qpower_0_lt. reflexivity. Qed.

Lemma pow2_add (a b : Z) : pow2 (a + b) == pow2 a * pow2 b.
Proof. unfold pow2. apply Qpower_plus. discriminate. Qed.

Lemma pow2_le (a b : Z) : (a <= b)%Z -> pow2 a <= pow2 b.
Proof. intro H. unfold pow2. apply Qpower_le_compat_l; [exact H | discriminate]. Qed.

Lemma pow2_lt (a b : Z) : (a < b)%Z -> pow2 a < pow2 b.
Proof. intro H. unfold pow2. apply Qpower_lt_compat_l; [exact H | reflexivity]. Qed.

Lemma pow2_lt_inv (a b : Z) : pow2 a < pow2 b -> (a < b)%Z.
Proof. intro H. unfold pow2 in H. apply (Qpower_lt_compat_l_inv 2); [exact H | reflexivity]. Qed.

Lemma pow2_Z (n : Z) : (0 <= n)%Z -> pow2 n == inject_Z (2 ^ n).
Proof. intro H. unfold pow2. rewrite (Zpower_Qpower 2 n H). reflexivity. Qed.

Lemma pow2_succ (a : Z) : pow2 (a + 1) == 2 * pow2 a.
Proof. rewrite pow2_add. change (pow2 1) with 2. ring. Qed.

Lemma log2_bounds (n : Z) :
  (0 < n)%Z -> pow2 (Z.log2 n) <= inject_Z n /\ inject_Z n < pow2 (Z.log2 n + 1).
Proof.
  intro H. destruct (Z.log2_spec n H) as (Hl & Hh).
  pose proof (Z.log2_nonneg n) as Hnn.
  rewrite !pow2_Z by lia. rewrite <- Zle_Qle, <- Zlt_Qlt.
  split; [exact Hl | exact Hh].
Qed.

Lemma ilog2_spec (x : Q) :
  0 < x -> pow2 (ilog2 x) <= x /\ x < pow2 (ilog2 x + 1).
Proof.
  intro Hx. destruct x as [n d].
  assert (0 < n)%Z as Hn by (unfold Qlt in Hx; simpl in Hx; lia).
  destruct (log2_bounds n Hn) as (Hnl & Hnh).
  destruct (log2_bounds (Zpos d) (Pos2Z.is_pos d)) as (Hdl & Hdh).
  unfold ilog2. cbn [Qnum Qden].
  set (a := Z.log2 n) in *. set (b := Z.log2 (Zpos d)) in *.
  assert (n # d == inject_Z n / inject_Z (Zpos d)) as Hq by apply Qmake_Qdiv.
  assert (0 < inject_Z (Zpos d)) as Hd by reflexivity.
  assert ((n # d) * inject_Z (Zpos d) == inject_Z n) as Hmul
    by (rewrite Hq; field; discriminate).
  set (x := n # d) in *. set (D := inject_Z (Zpos d)) in *. set (N := inject_Z n) in *.
  pose proof (pow2_pos b) as Pb. pose proof (pow2_pos (a - b)) as Pk.
  assert (pow2 a == pow2 (a - b) * pow2 b) as Ha
    by (rewrite <- pow2_add; replace (a - b + b)%Z with a by lia; reflexivity).
  assert (pow2 (a + 1) == pow2 (a - b + 1) * pow2 b) as Ha1
    by (rewrite <- pow2_add; replace (a - b + 1 + b)%Z with (a + 1)%Z by lia; reflexivity).
  assert (pow2 (b + 1) == 2 * pow2 b) as Hb1 by apply pow2_succ.
  assert (pow2 (a - b + 1) == 2 * pow2 (a - b)) as Hk1 by apply pow2_succ.
  assert (pow2 (a - b) == 2 * pow2 (a - b - 1)) as Hk0
    by (rewrite <- pow2_succ; replace (a - b - 1 + 1)%Z with (a - b)%Z by lia; reflexivity).
  assert (x < pow2 (a - b + 1)) as Hupper.
  { apply Qnot_le_lt. intro Hc.
    assert (pow2 (a - b + 1) * pow2 b <= x * D) as Hc'
      by (apply Qle_trans with (x * pow2 b);
          [apply Qmult_le_compat_r; [exact Hc | apply Qlt_le_weak; exact Pb]
          | rewrite !(Qmult_comm x); apply Qmult_le_compat_r; [exact Hdl | apply Qlt_le_weak; exact Hx]]).
    rewrite <- Ha1, Hmul in Hc'. apply (Qlt_not_le _ _ Hnh Hc'). }
  assert (pow2 (a - b - 1) < x) as Hlower.
  { apply Qnot_le_lt. intro Hc.
    assert (x * D < pow2 (a - b - 1) * pow2 (b + 1)) as Hc'.
    { apply Qle_lt_trans with (pow2 (a - b - 1) * D).
      - apply Qmult_le_compat_r; [exact Hc | apply Qlt_le_weak; exact Hd].
      - rewrite !(Qmult_comm (pow2 (a - b - 1))). apply Qmult_lt_compat_r; [apply pow2_pos | exact Hdh]. }
    rewrite Hmul, Hb1 in Hc'.
    assert (pow2 (a - b - 1) * (2 * pow2 b) == pow2 a) as E by (rewrite Ha, Hk0; ring).
    rewrite E in Hc'. apply (Qlt_not_le _ _ Hc' Hnl). }
  destruct (Qle_bool (pow2 (a - b)) x) eqn:E.
  - apply Qle_bool_iff in E. split; [exact E | exact Hupper].
  - split; [apply Qlt_le_weak; exact Hlower |].
    replace (a - b - 1 + 1)%Z with (a - b)%Z by lia.
    apply Qnot_le_lt. intro Hc. apply Qle_bool_iff in Hc. congruence.
Qed.

Lemma ilog2_unique (x : Q) (k : Z) :
  pow2 k <= x -> x < pow2 (k + 1) -> ilog2 x = k.
Proof.
  intros Hl Hh.
  assert (0 < x) as Hx by (apply Qlt_le_trans with (pow2 k); [apply pow2_pos | exact Hl]).
  destruct (ilog2_spec x Hx) as (Sl & Sh).
  assert (ilog2 x < k + 1)%Z by (apply pow2_lt_inv; apply Qle_lt_trans with x; assumption).
  assert (k < ilog2 x + 1)%Z by (apply pow2_lt_inv; apply Qle_lt_trans with x; assumption).
  lia.
Qed.

Lemma ilog2_mono (x y : Q) : 0 < x -> x <= y -> (ilog2 x <= ilog2 y)%Z.
Proof.
  intros Hx Hxy.
  assert (0 < y) as Hy by (apply Qlt_le_trans with x; assumption).
  destruct (ilog2_spec x Hx) as (Sl & _). destruct (ilog2_spec y Hy) as (_ & Sh).
  assert (ilog2 x < ilog2 y + 1)%Z
    by (apply pow2_lt_inv; apply Qle_lt_trans with x; [exact Sl |];
        apply Qle_lt_trans with y; assumption).
  lia.
Qed.

Lemma ilog2_comp (x y : Q) : 0 < x -> x == y -> ilog2 x = ilog2 y.
Proof.
  intros Hx E. destruct (ilog2_spec x Hx) as (Sl & Sh).
  symmetry. apply ilog2_unique; rewrite <- E; assumption.
Qed.

Lemma rne_Z (z : Z) : rne (inject_Z z) = z.
Proof.
  unfold rne. rewrite Qfloor_Z.
  assert (Qcompare (inject_Z z - inject_Z z) (1 # 2) = Lt) as ->
    by (apply -> Qlt_alt; lra).
  reflexivity.
Qed.

Lemma rne_comp (p q : Q) : p == q -> rne p = rne q.
Proof.
  intro E. unfold rne. rewrite (Qfloor_comp p q E).
  assert (Qcompare (p - inject_Z (Qfloor q)) (1 # 2)
          = Qcompare (q - inject_Z (Qfloor q)) (1 # 2)) as ->
    by (apply Qcompare_comp; [rewrite E; reflexivity | reflexivity]).
  reflexivity.
Qed.

Lemma rne_floor (q : Q) : (Qfloor q <= rne q <= Qfloor q + 1)%Z.
Proof.
  unfold rne. destruct (Qcompare _ _); [destruct (Z.even _) | |]; lia.
Qed.

Lemma rne_mono (p q : Q) : p <= q -> (rne p <= rne q)%Z.
Proof.
  intro H. pose proof (Qfloor_resp_le p q H) as Hf.
  pose proof (rne_floor p) as Hp. pose proof (rne_floor q) as Hq.
  destruct (Z.eq_dec (Qfloor p) (Qfloor q)) as [E | N]; [| lia].
  unfold rne. rewrite E.
  destruct (Qcompare (p - inject_Z (Qfloor q)) (1 # 2)) eqn:Cp;
    destruct (Qcompare (q - inject_Z (Qfloor q)) (1 # 2)) eqn:Cq;
    try destruct (Z.even (Qfloor q)); try lia; exfalso;
    repeat match goal with
           | H : Qcompare _ _ = Eq |- _ => apply Qeq_alt in H
           | H : Qcompare _ _ = Lt |- _ => apply Qlt_alt in H
           | H : Qcompare _ _ = Gt |- _ => apply Qgt_alt in H
           end; lra.
Qed.

Lemma roundAt_mono (e : Z) (x y : Q) : x <= y -> roundAt e x <= roundAt e y.
Proof.
  intro H. unfold roundAt. pose proof (pow2_pos e) as P.
  apply Qmult_le_compat_r; [| apply Qlt_le_weak; exact P].
  rewrite <- Zle_Qle. apply rne_mono.
  unfold Qdiv. apply Qmult_le_compat_r; [exact H |].
  apply Qinv_le_0_compat. apply Qlt_le_weak. exact P.
Qed.

Lemma roundAt_comp (e : Z) (x y : Q) : x == y -> roundAt e x == roundAt e y.
Proof.
  intro E. unfold roundAt.
  rewrite (rne_comp (x / pow2 e) (y / pow2 e)) by (rewrite E; reflexivity).
  reflexivity.
Qed.

(** A multiple of a finer unit is kept by the rounding at a coarser one. *)
Lemma roundAt_multiple (e e' : Z) (n : Z) (x : Q) :
  (e' <= e)%Z -> x == inject_Z n * pow2 e -> roundAt e' x == x.
Proof.
  intros He Hx. unfold roundAt. pose proof (pow2_pos e') as P.
  assert (pow2 e == inject_Z (2 ^ (e - e')) * pow2 e') as Hsplit.
  { rewrite <- pow2_Z by lia. rewrite <- pow2_add.
    replace (e - e' + e')%Z with e by lia. reflexivity. }
  assert (x / pow2 e' == inject_Z (n * 2 ^ (e - e'))) as Hdiv.
  { rewrite Hx, Hsplit, inject_Z_mult. field. lra. }
  rewrite (rne_comp _ _ Hdiv), rne_Z, Hx, Hsplit, inject_Z_mult. ring.
Qed.

Lemma roundAt_pow2 (e M : Z) : (e <= M)%Z -> roundAt e (pow2 M) == pow2 M.
Proof.
  intro H. apply (roundAt_multiple M e 1 (pow2 M) H). ring.
Qed.

Lemma roundAt_nonneg (e : Z) (x : Q) : 0 <= x -> 0 <= roundAt e x.
Proof.
  intro H. assert (roundAt e 0 == 0) as Z0
    by (apply (roundAt_multiple e e 0 0); [lia | ring]).
  rewrite <- Z0. apply roundAt_mono. exact H.
Qed.

Lemma exponent_comp (x y : Q) : 0 < x -> x == y -> exponent x = exponent y.
Proof. intros Hx E. unfold exponent. rewrite (ilog2_comp x y Hx E). reflexivity. Qed.

Lemma roundPos_zero (x : Q) : x == 0 -> roundPos x == 0.
Proof.
  intro E. unfold roundPos. rewrite (roundAt_comp _ x 0 E).
  apply (roundAt_multiple (exponent x) (exponent x) 0 0); [lia | ring].
Qed.

Lemma roundPos_comp (x y : Q) : 0 <= x -> x == y -> roundPos x == roundPos y.
Proof.
  intros Hx E. apply Qle_lt_or_eq in Hx. destruct Hx as [Hpos | Hzero].
  - unfold roundPos. rewrite (exponent_comp x y Hpos E). apply roundAt_comp. exact E.
  - symmetry in Hzero. rewrite (roundPos_zero x Hzero).
    rewrite roundPos_zero; [reflexivity | rewrite <- E; exact Hzero].
Qed.

Lemma roundPos_nonneg (x : Q) : 0 <= x -> 0 <= roundPos x.
Proof. apply roundAt_nonneg. Qed.

Lemma exponent_bounds (x : Q) :
  (ilog2 x - 52 <= exponent x)%Z /\ (-1074 <= exponent x)%Z /\
  (exponent x = ilog2 x - 52 \/ exponent x = -1074)%Z.
Proof. unfold exponent. lia. Qed.

(** The rounded value stays between the powers of two around the argument. *)
Lemma roundPos_upper (x : Q) :
  0 < x -> roundPos x <= pow2 (Z.max (ilog2 x + 1) (exponent x)).
Proof.
  intro Hx. destruct (ilog2_spec x Hx) as (_ & Sh).
  set (M := Z.max (ilog2 x + 1) (exponent x)).
  unfold roundPos. rewrite <- (roundAt_pow2 (exponent x) M) by lia.
  apply roundAt_mono. apply Qle_trans with (pow2 (ilog2 x + 1)).
  - apply Qlt_le_weak. exact Sh.
  - apply pow2_le. lia.
Qed.

Lemma roundPos_lower (x : Q) :
  0 < x -> (exponent x <= ilog2 x)%Z -> pow2 (ilog2 x) <= roundPos x.
Proof.
  intros Hx He. destruct (ilog2_spec x Hx) as (Sl & _).
  unfold roundPos. rewrite <- (roundAt_pow2 (exponent x) (ilog2 x)) by lia.
  apply roundAt_mono. exact Sl.
Qed.

Lemma roundPos_mono (x y : Q) : 0 <= x -> x <= y -> roundPos x <= roundPos y.
Proof.
  intros Hx Hxy. apply Qle_lt_or_eq in Hx. destruct Hx as [Hx | Hzero].
  2:{ symmetry in Hzero. rewrite (roundPos_zero x Hzero). apply roundPos_nonneg. lra. }
  assert (0 < y) as Hy by lra.
  pose proof (ilog2_mono x y Hx Hxy) as Hk.
  pose proof (exponent_bounds x) as (Ex1 & Ex2 & Ex3).
  pose proof (exponent_bounds y) as (Ey1 & Ey2 & Ey3).
  destruct (Z.eq_dec (exponent x) (exponent y)) as [E | N].
  - unfold roundPos. rewrite E. apply roundAt_mono. exact Hxy.
  - assert (exponent x < exponent y)%Z as Hlt by (unfold exponent in *; lia).
    apply Qle_trans with (pow2 (Z.max (ilog2 x + 1) (exponent x)));
      [apply roundPos_upper; exact Hx |].
    apply Qle_trans with (pow2 (ilog2 y));
      [| apply roundPos_lower; [exact Hy | lia]].
    apply pow2_le. unfold exponent in *. lia.
Qed.

Lemma roundPos_idem (x : Q) : 0 <= x -> roundPos (roundPos x) == roundPos x.
Proof.
  intro Hx. apply Qle_lt_or_eq in Hx. destruct Hx as [Hx | Hzero].
  2:{ symmetry in Hzero. pose proof (roundPos_zero x Hzero) as Hr.
      rewrite (roundPos_zero (roundPos x) Hr), Hr. reflexivity. }
  pose proof (roundPos_nonneg x (Qlt_le_weak _ _ Hx)) as Hy.
  set (y := roundPos x) in *.
  apply Qle_lt_or_eq in Hy. destruct Hy as [Hy | Hzero].
  2:{ symmetry in Hzero. rewrite (roundPos_zero y Hzero), Hzero. reflexivity. }
  pose proof (roundPos_upper x Hx) as Hup. fold y in Hup.
  set (M := Z.max (ilog2 x + 1) (exponent x)) in *.
  pose proof (exponent_bounds x) as (Ex1 & Ex2 & Ex3).
  pose proof (exponent_bounds y) as (Ey1 & Ey2 & Ey3).
  apply Qle_lt_or_eq in Hup. destruct Hup as [Hup | Hup].
  - assert (ilog2 y < M)%Z as Hk.
    { apply pow2_lt_inv. destruct (ilog2_spec y Hy) as (Sl & _).
      apply Qle_lt_trans with y; assumption. }
    unfold roundPos at 1.
    apply (roundAt_multiple (exponent x) (exponent y) (rne (x / pow2 (exponent x)))).
    + unfold exponent in *. lia.
    + reflexivity.
  - assert (ilog2 y = M) as Hk.
    { apply ilog2_unique; rewrite Hup; [apply Qle_refl | apply pow2_lt; lia]. }
    unfold roundPos at 1.
    apply (roundAt_multiple M (exponent y) 1).
    + unfold exponent in *. lia.
    + rewrite Hup. ring.
Qed.

Lemma round64_nonneg_eq (x : Q) : 0 <= x -> round64 x = roundPos x.
Proof.
  intro H. unfold round64. apply ltb_false in H. rewrite H. reflexivity.
Qed.

Lemma round64_neg_eq (x : Q) : x < 0 -> round64 x = - roundPos (- x).
Proof.
  intro H. unfold round64. apply ltb_true in H. rewrite H. reflexivity.
Qed.

Lemma round64_comp (x y : Q) : x == y -> round64 x == round64 y.
Proof.
  intro E. destruct (Qlt_le_dec x 0) as [Hneg | Hpos].
  - rewrite (round64_neg_eq x Hneg), (round64_neg_eq y) by (rewrite <- E; exact Hneg).
    apply Qopp_comp. apply roundPos_comp; [lra | rewrite E; reflexivity].
  - rewrite (round64_nonneg_eq x Hpos), (round64_nonneg_eq y) by (rewrite <- E; exact Hpos).
    apply roundPos_comp; assumption.
Qed.

Lemma round64_nonneg (x : Q) : 0 <= x -> 0 <= round64 x.
Proof.
  intro H. rewrite (round64_nonneg_eq x H). apply roundPos_nonneg. exact H.
Qed.

Lemma round64_nonpos (x : Q) : x <= 0 -> round64 x <= 0.
Proof.
  intro H. apply Qle_lt_or_eq in H. destruct H as [Hneg | Hzero].
  - rewrite (round64_neg_eq x Hneg).
    assert (0 <= roundPos (- x)) by (apply roundPos_nonneg; lra). lra.
  - rewrite round64_nonneg_eq by lra. rewrite (roundPos_zero x Hzero). apply Qle_refl.
Qed.

Lemma round64_zero (x : Q) : x == 0 -> round64 x == 0.
Proof.
  intro E. apply Qle_antisym; [apply round64_nonpos | apply round64_nonneg]; lra.
Qed.

(** The rounding keeps the order. *)
Lemma round64_mono (x y : Q) : x <= y -> round64 x <= round64 y.
Proof.
  intro H. destruct (Qlt_le_dec x 0) as [Hx | Hx]; destruct (Qlt_le_dec y 0) as [Hy | Hy].
  - rewrite (round64_neg_eq x Hx), (round64_neg_eq y Hy).
    assert (roundPos (- y) <= roundPos (- x)) by (apply roundPos_mono; lra). lra.
  - apply Qle_trans with 0; [apply round64_nonpos; lra | apply round64_nonneg; exact Hy].
  - exfalso. lra.
  - rewrite (round64_nonneg_eq x Hx), (round64_nonneg_eq y Hy).
    apply roundPos_mono; assumption.
Qed.

(** A rounded number is a double. *)
Lemma round64_idem (x : Q) : round64 (round64 x) == round64 x.
Proof.
  destruct (Qlt_le_dec x 0) as [Hx | Hx].
  - rewrite (round64_neg_eq x Hx).
    assert (0 <= roundPos (- x)) as Hy by (apply roundPos_nonneg; lra).
    apply Qle_lt_or_eq in Hy. destruct Hy as [Hy | Hzero].
    + rewrite round64_neg_eq by lra.
      apply Qopp_comp.
      rewrite (roundPos_comp (- - roundPos (- x)) (roundPos (- x)))
        by (try lra; apply Qopp_involutive).
      apply roundPos_idem. lra.
    + rewrite round64_zero by (rewrite <- Hzero; reflexivity).
      rewrite <- Hzero. reflexivity.
  - rewrite (round64_nonneg_eq x Hx).
    rewrite round64_nonneg_eq by (apply roundPos_nonneg; exact Hx).
    apply roundPos_idem. exact Hx.
Qed.

Lemma representable_round64 (x : Q) : representable (round64 x).
Proof. apply round64_idem. Qed.

Lemma representable_comp (x y : Q) : x == y -> representable x -> representable y.
Proof.
  unfold representable. intros E H.
  apply Qeq_trans with (round64 x); [symmetry; apply round64_comp; exact E |].
  apply Qeq_trans with x; assumption.
Qed.

Lemma representable_0 : representable 0.
Proof. apply round64_zero. reflexivity. Qed.

Lemma representable_1 : representable 1.
Proof. unfold representable. vm_compute. reflexivity. Qed.

(** A double above a rounded number is above the number it was rounded
    from, and likewise below. *)
Lemma round64_le_representable (x y : Q) :
  representable y -> x <= y -> round64 x <= y.
Proof.
  intros Hy H. unfold representable in Hy.
  apply Qle_trans with (round64 y); [apply round64_mono; exact H |].
  rewrite Hy. apply Qle_refl.
Qed.

Lemma round64_ge_representable (x y : Q) :
  representable y -> y <= x -> y <= round64 x.
Proof.
  intros Hy H. unfold representable in Hy.
  apply Qle_trans with (round64 y); [| apply round64_mono; exact H].
  rewrite Hy. apply Qle_refl.
Qed.

Lemma lt_round64_representable (x y : Q) :
  representable y -> y < round64 x -> y <= x.
Proof.
  intros Hy H. apply Qnot_lt_le. intro Hc.
  assert (round64 x <= y) by (apply round64_le_representable; [exact Hy | lra]).
  lra.
Qed.

Lemma add_comp (a b c d : Q) : a == b -> c == d -> add a c == add b d.
Proof. intros E F. apply round64_comp. rewrite E, F. reflexivity. Qed.

Lemma sub_comp (a b c d : Q) : a == b -> c == d -> sub a c == sub b d.
Proof. intros E F. apply round64_comp. rewrite E, F. reflexivity. Qed.

Lemma add_0_l (x : Q) : representable x -> add 0 x == x.
Proof.
  intro H. unfold add. rewrite (round64_comp (0 + x) x) by ring. exact H.
Qed.

(** Adding a number that is not negative does not go down. *)
Lemma add_increases (a d : Q) : representable a -> 0 <= d -> a <= add a d.
Proof.
  intros Ha Hd. apply round64_ge_representable; [exact Ha | lra].
Qed.

Lemma sub_self (x y : Q) : x == y -> sub x y == 0.
Proof. intro E. apply round64_zero. rewrite E. ring. Qed.

Lemma mul_unit_range (p c : Q) :
  0 <= p <= 1 -> 0 <= c -> representable c -> 0 <= mul p c <= c.
Proof.
  intros (Hl & Hh) Hc Rc. unfold mul. split.
  - apply round64_nonneg. apply Qmult_le_0_compat; assumption.
  - apply round64_le_representable; [exact Rc |].
    rewrite <- (Qmult_1_l c) at 2. apply Qmult_le_compat_r; assumption.
Qed.

Lemma div_positive (x y : Q) : 0 < y -> div x y = Some (round64 (x / y)).
Proof.
  intro H. unfold div.
  destruct (Qeq_bool y 0) eqn:E; [| reflexivity].
  apply Qeq_bool_eq in E. rewrite E in H. exfalso. apply (Qlt_irrefl 0 H).
Qed.

(** The quotient of a part by the whole lies between 0 and 1. *)
Lemma ratio_unit_range (c d : Q) :
  0 < d -> 0 <= c <= d -> 0 <= round64 (c / d) <= 1.
Proof.
  intros Hd (Hl & Hh). split.
  - apply round64_nonneg. apply Qle_shift_div_l; [exact Hd | lra].
  - apply round64_le_representable; [exact representable_1 |].
    apply Qle_shift_div_r; [exact Hd | lra].
Qed.

Lemma ratio_zero (c d : Q) : c == 0 -> round64 (c / d) == 0.
Proof. intro E. apply round64_zero. rewrite E. unfold Qdiv. ring. Qed.

Lemma ratio_one (c d : Q) : 0 < d -> c == d -> round64 (c / d) == 1.
Proof.
  intros Hd E. rewrite (round64_comp (c / d) 1); [exact representable_1 |].
  rewrite E. field. lra.
Qed.

End Float64Facts.

Import Float64Facts.

(** ** The resolver in binary64 *)

Lemma rounded_offsetBefore_succ
      (scenes : list SceneDescriptor) (n : nat) (scene : SceneDescriptor) :
  nth_error scenes n = Some scene ->
  Rounded.offsetBefore scenes (S n)
  = Float64.add (Rounded.offsetBefore scenes n) (duration scene).
Proof.
  intro H. unfold Rounded.offsetBefore.
  rewrite (firstn_snoc _ _ _ H), fold_left_app. reflexivity.
Qed.

Lemma rounded_offsetBefore_all (scenes : list SceneDescriptor) (n : nat) :
  (length scenes <= n)%nat ->
  Rounded.offsetBefore scenes n = Rounded.totalDuration scenes.
Proof.
  intro H. unfold Rounded.totalDuration, Rounded.offsetBefore.
  rewrite (firstn_all2 (n := n) scenes) by exact H.
  rewrite firstn_all. reflexivity.
Qed.

(** The accumulator of the loop holds a double. *)
Lemma rounded_offset_representable (scenes : list SceneDescriptor) (n : nat) :
  Float64.representable (Rounded.offsetBefore scenes n).
Proof.
  induction n as [| n IH]; [exact representable_0 |].
  destruct (nth_error scenes n) as [scene |] eqn:E.
  - rewrite (rounded_offsetBefore_succ _ _ _ E). apply representable_round64.
  - apply nth_error_None in E.
    rewrite (rounded_offsetBefore_all scenes (S n)) by lia.
    rewrite <- (rounded_offsetBefore_all scenes n E). exact IH.
Qed.

(** With durations that are not negative, the accumulator does not go
    down. *)
Lemma rounded_offset_mono (scenes : list SceneDescriptor) (n m : nat) :
  positiveDurations scenes -> (n <= m)%nat ->
  Rounded.offsetBefore scenes n <= Rounded.offsetBefore scenes m.
Proof.
  intros Hpos Hnm. induction Hnm as [| m Hnm IH]; [apply Qle_refl |].
  destruct (nth_error scenes m) as [scene |] eqn:E.
  - rewrite (rounded_offsetBefore_succ _ _ _ E).
    apply Qle_trans with (Rounded.offsetBefore scenes m); [exact IH |].
    apply add_increases; [apply rounded_offset_representable |].
    unfold positiveDurations in Hpos. rewrite Forall_forall in Hpos.
    apply Qlt_le_weak. apply Hpos. eapply nth_error_In; eauto.
  - apply nth_error_None in E.
    rewrite (rounded_offsetBefore_all scenes (S m)) by lia.
    rewrite <- (rounded_offsetBefore_all scenes m E). exact IH.
Qed.

Lemma duration_positive (scenes : list SceneDescriptor) (k : nat) (scene : SceneDescriptor) :
  positiveDurations scenes -> nth_error scenes k = Some scene -> 0 < duration scene.
Proof.
  intros Hpos Hnth. unfold positiveDurations in Hpos. rewrite Forall_forall in Hpos.
  apply Hpos. eapply nth_error_In; eauto.
Qed.

Lemma duration_representable
      (scenes : list SceneDescriptor) (k : nat) (scene : SceneDescriptor) :
  Rounded.representableDurations scenes -> nth_error scenes k = Some scene ->
  Float64.representable (duration scene).
Proof.
  intros Hrep Hnth. unfold Rounded.representableDurations in Hrep.
  rewrite Forall_forall in Hrep. apply Hrep. eapply nth_error_In; eauto.
Qed.

Section RoundedResolverFacts.

Variable scenes : list SceneDescriptor.
Variable elapsed : Q.

Lemma rounded_activeAt_unique (k k' : nat) :
  Rounded.activeAt scenes elapsed k -> Rounded.activeAt scenes elapsed k' -> k = k'.
Proof.
  intros (Hk & Hbefore & Hend) (Hk' & Hbefore' & Hend').
  destruct (Nat.lt_trichotomy k k') as [L | [E | L]]; [| exact E |]; exfalso.
  - specialize (Hbefore' k L).
    destruct Hend as [Hend | Hend]; [| lia].
    apply (Qlt_not_le _ _ Hend Hbefore').
  - specialize (Hbefore k' L).
    destruct Hend' as [Hend' | Hend']; [| lia].
    apply (Qlt_not_le _ _ Hend' Hbefore).
Qed.

(** The invariant of the loop, as for the exact reading. *)
Lemma rounded_sceneLoop_active (remaining pre : list SceneDescriptor) :
  scenes = pre ++ remaining ->
  remaining <> [] ->
  (forall j, (j < length pre)%nat -> Rounded.cumulativeEnd scenes j <= elapsed) ->
  exists k scene,
    nth_error scenes k = Some scene /\
    Rounded.activeAt scenes elapsed k /\
    Rounded.sceneLoop scenes elapsed (Z.of_nat (length pre))
                      (Rounded.offsetBefore scenes (length pre)) remaining
    = Some (Rounded.stateAt elapsed k (Rounded.offsetBefore scenes k) scene).
Proof.
  revert pre. induction remaining as [| scene remaining' IH]; intros pre Hsplit Hne Hbefore.
  - contradiction.
  - assert (nth_error scenes (length pre) = Some scene) as Hnth
      by (rewrite Hsplit; apply nth_error_middle).
    assert (length scenes = (length pre + S (length remaining'))%nat) as Hlen
      by (rewrite Hsplit, length_app; reflexivity).
    pose proof (rounded_offsetBefore_succ _ _ _ Hnth) as Hend.
    simpl Rounded.sceneLoop.
    destruct (Num.ltb elapsed
                (Float64.add (Rounded.offsetBefore scenes (length pre)) (duration scene))
              || (Z.of_nat (length pre) =? sequenceLength scenes - 1)%Z) eqn:Hcond.
    + exists (length pre), scene. split; [exact Hnth |]. split.
      * split; [lia |]. split; [exact Hbefore |].
        apply orb_true_iff in Hcond. destruct Hcond as [Hlt | Hlast].
        -- left. unfold Rounded.cumulativeEnd. rewrite Hend. apply ltb_true. exact Hlt.
        -- right. apply Z.eqb_eq in Hlast. unfold sequenceLength in Hlast. lia.
      * unfold Rounded.stateAt.
        destruct (Num.ltb 0 (duration scene)) eqn:Hpos; [| reflexivity].
        apply ltb_true in Hpos. rewrite (div_positive _ _ Hpos). reflexivity.
    + apply orb_false_iff in Hcond. destruct Hcond as [Hge Hnotlast].
      apply ltb_false in Hge. apply Z.eqb_neq in Hnotlast.
      unfold sequenceLength in Hnotlast.
      assert (remaining' <> []) as Hne'.
      { intro Hnil. subst remaining'. simpl in Hlen. lia. }
      specialize (IH (pre ++ [scene])).
      rewrite length_app in IH. simpl length in IH.
      replace (length pre + 1)%nat with (S (length pre)) in IH by lia.
      rewrite Hend, Nat2Z.inj_succ in IH. unfold Z.succ in IH.
      apply IH.
      * rewrite <- app_assoc. exact Hsplit.
      * exact Hne'.
      * intros j Hj. destruct (Nat.eq_dec j (length pre)) as [-> | Hneq].
        -- unfold Rounded.cumulativeEnd. rewrite Hend. exact Hge.
        -- apply Hbefore. lia.
Qed.

Lemma rounded_getSceneState_active :
  scenes <> [] ->
  exists k scene,
    nth_error scenes k = Some scene /\
    Rounded.activeAt scenes elapsed k /\
    Rounded.getSceneState scenes elapsed
    = Some (Rounded.stateAt elapsed k (Rounded.offsetBefore scenes k) scene).
Proof.
  intro Hne.
  apply (rounded_sceneLoop_active scenes []); [reflexivity | exact Hne |].
  intros j Hj. simpl in Hj. lia.
Qed.

End RoundedResolverFacts.

Lemma rounded_getSceneState_empty (elapsed : Q) :
  Rounded.getSceneState [] elapsed
  = Some {| index := -1; sceneElapsed := 0; totalElapsed := elapsed; progress := 1 |}.
Proof. reflexivity. Qed.

(** C1.  For every elapsed time between 0 and the total duration, the resolver
    returns one state; its index is the position of the active scene, and of
    no other: the first scene whose cumulative end, as the loop accumulates
    it in binary64, exceeds the elapsed time, or the last scene when there is
    none.  The scene-local elapsed time it returns is at most the duration of
    that scene. *)
Theorem resolver_active_scene (scenes : list SceneDescriptor) (elapsed : Q) :
  scenes <> [] ->
  0 <= elapsed -> elapsed <= Rounded.totalDuration scenes ->
  exists st,
    Rounded.getSceneState scenes elapsed = Some st /\
    (0 <= index st < sequenceLength scenes)%Z /\
    (forall k, Rounded.activeAt scenes elapsed k <-> index st = Z.of_nat k) /\
    sceneElapsed st <= durationAt scenes (index st).
Proof.
  intros Hne _ _.
  destruct (rounded_getSceneState_active scenes elapsed Hne)
    as (k & scene & Hnth & Hact & Hst).
  exists (Rounded.stateAt elapsed k (Rounded.offsetBefore scenes k) scene).
  split; [exact Hst |]. simpl index. simpl sceneElapsed.
  split; [| split].
  - destruct Hact as (Hk & _). unfold sequenceLength. lia.
  - intro k'. split.
    + intro Hact'. f_equal. apply (rounded_activeAt_unique scenes elapsed); assumption.
    + intro Heq. apply Nat2Z.inj in Heq. subst k'. exact Hact.
  - rewrite (durationAt_nth _ _ _ Hnth). apply clamp_le.
Qed.

Lemma resolver_active_scene_witness :
  exists st,
    Rounded.getSceneState roundingCatalog 20 = Some st /\
    (0 <= index st < sequenceLength roundingCatalog)%Z /\
    (forall k, Rounded.activeAt roundingCatalog 20 k <-> index st = Z.of_nat k) /\
    sceneElapsed st <= durationAt roundingCatalog (index st).
Proof.
  apply (resolver_active_scene roundingCatalog 20).
  - discriminate.
  - vm_compute. discriminate.
  - vm_compute. discriminate.
Defined.

(** Where the rounding of the accumulator shows in the index: 0.7 + 0.1 is
    0.7999999999999999, so that elapsed time is already in the third scene;
    and 2^53 + 1 is 2^53, so the second scene is never resolved. *)
Example getSceneState_nearCatalog :
  exists st,
    Rounded.getSceneState nearCatalog (Float64.lit 0.7999999999999999) = Some st /\
    index st = 2%Z.
Proof. eexists. split; [vm_compute; reflexivity | reflexivity]. Qed.

Example getSceneState_absorbingCatalog :
  exists st,
    Rounded.getSceneState absorbingCatalog (inject_Z (2 ^ 53)) = Some st /\
    index st = 2%Z.
Proof. eexists. split; [vm_compute; reflexivity | reflexivity]. Qed.

Lemma rounded_getSceneState_total (scenes : list SceneDescriptor) (elapsed : Q) :
  exists st, Rounded.getSceneState scenes elapsed = Some st.
Proof.
  destruct scenes as [| scene scenes'].
  - eexists. apply rounded_getSceneState_empty.
  - destruct (rounded_getSceneState_active (scene :: scenes') elapsed)
      as (k & s & _ & _ & H); [discriminate |].
    eexists. exact H.
Qed.

(** The progress of a state built by the loop lies between 0 and 1. *)
Lemma rounded_stateAt_progress_unit
      (elapsed start : Q) (k : nat) (scene : SceneDescriptor) :
  0 <= progress (Rounded.stateAt elapsed k start scene) <= 1.
Proof.
  simpl. destruct (Num.ltb 0 (duration scene)) eqn:E; [| split; discriminate].
  apply ltb_true in E. apply ratio_unit_range; [exact E |]. split.
  - apply clamp_nonneg. apply Qlt_le_weak. exact E.
  - apply clamp_le.
Qed.

Lemma rounded_progress_unit (scenes : list SceneDescriptor) (elapsed : Q) :
  exists st,
    Rounded.getSceneState scenes elapsed = Some st /\ 0 <= progress st <= 1.
Proof.
  destruct scenes as [| scene scenes'].
  - eexists. split; [apply rounded_getSceneState_empty |]. simpl. split; discriminate.
  - destruct (rounded_getSceneState_active (scene :: scenes') elapsed)
      as (k & sc & _ & _ & Hst); [discriminate |].
    eexists. split; [exact Hst | apply rounded_stateAt_progress_unit].
Qed.

(** Where the first scene is active in binary64. *)
Lemma rounded_activeAt_first (scenes : list SceneDescriptor) (elapsed : Q) :
  scenes <> [] -> positiveDurations scenes -> Rounded.representableDurations scenes ->
  elapsed <= 0 -> Rounded.activeAt scenes elapsed 0.
Proof.
  intros Hne Hpos Hrep He. destruct scenes as [| scene scenes']; [contradiction |].
  split; [simpl; lia |]. split; [intros j Hj; lia |].
  left. unfold Rounded.cumulativeEnd, Rounded.offsetBefore. simpl.
  apply Forall_inv in Hpos. apply Forall_inv in Hrep.
  rewrite (add_0_l _ Hrep). lra.
Qed.

(** Where the last scene is active in binary64. *)
Lemma rounded_activeAt_last (scenes : list SceneDescriptor) (elapsed : Q) :
  scenes <> [] -> positiveDurations scenes ->
  Rounded.totalDuration scenes <= elapsed ->
  Rounded.activeAt scenes elapsed (length scenes - 1).
Proof.
  intros Hne Hpos He.
  assert (length scenes <> 0%nat) as Hlen
    by (destruct scenes; [contradiction | simpl; lia]).
  split; [lia |]. split; [| right; lia].
  intros j Hj. apply Qle_trans with (Rounded.totalDuration scenes); [| exact He].
  unfold Rounded.cumulativeEnd, Rounded.totalDuration.
  apply rounded_offset_mono; [exact Hpos | lia].
Qed.

(** The clamp at and below the start of a scene, and at and beyond its
    end. *)
Lemma rounded_clamp_below (elapsed start d : Q) :
  elapsed <= start -> 0 <= d ->
  Qmin (Qmax (Float64.sub elapsed start) 0) d == 0.
Proof.
  intros He Hd.
  assert (Float64.sub elapsed start <= 0) as Hsub
    by (apply round64_nonpos; lra).
  rewrite (Q.max_r _ 0 Hsub). apply Q.min_l. exact Hd.
Qed.

Lemma rounded_clamp_above (elapsed start d : Q) :
  Float64.representable d -> 0 <= d -> start + d <= elapsed ->
  Qmin (Qmax (Float64.sub elapsed start) 0) d == d.
Proof.
  intros Hrep Hd He. apply Q.min_r.
  apply Qle_trans with (Float64.sub elapsed start); [| apply Q.le_max_l].
  apply round64_ge_representable; [exact Hrep | lra].
Qed.

(** The resolver before the start: the first scene, at its start. *)
Lemma rounded_getSceneState_start (scenes : list SceneDescriptor) (elapsed : Q) :
  scenes <> [] -> positiveDurations scenes -> Rounded.representableDurations scenes ->
  elapsed <= 0 ->
  exists st,
    Rounded.getSceneState scenes elapsed = Some st /\
    index st = 0%Z /\ sceneElapsed st == 0 /\ progress st == 0.
Proof.
  intros Hne Hpos Hrep He.
  destruct (rounded_getSceneState_active scenes elapsed Hne)
    as (k & scene & Hnth & Hact & Hst).
  pose proof (rounded_activeAt_unique _ _ _ _ Hact
                (rounded_activeAt_first _ _ Hne Hpos Hrep He)) as ->.
  pose proof (duration_positive _ _ _ Hpos Hnth) as Hd.
  eexists. split; [exact Hst |].
  change (Rounded.offsetBefore scenes 0) with 0.
  assert (Qmin (Qmax (Float64.sub elapsed 0) 0) (duration scene) == 0) as Hclamp
    by (apply rounded_clamp_below; lra).
  simpl. split; [reflexivity |]. split; [exact Hclamp |].
  apply ltb_true in Hd as Hb. rewrite Hb. apply ratio_zero. exact Hclamp.
Qed.

(** The resolver from the total on: the last scene; at its end when the
    elapsed time has reached the start of the scene plus its duration. *)
Lemma rounded_getSceneState_end (scenes : list SceneDescriptor) (elapsed : Q) :
  scenes <> [] -> positiveDurations scenes -> Rounded.representableDurations scenes ->
  Rounded.totalDuration scenes <= elapsed ->
  exists st,
    Rounded.getSceneState scenes elapsed = Some st /\
    index st = (sequenceLength scenes - 1)%Z /\
    0 <= progress st <= 1 /\
    (Rounded.offsetBefore scenes (length scenes - 1)
     + durationAt scenes (sequenceLength scenes - 1) <= elapsed ->
     progress st == 1).
Proof.
  intros Hne Hpos Hrep He.
  destruct (rounded_getSceneState_active scenes elapsed Hne)
    as (k & scene & Hnth & Hact & Hst).
  pose proof (rounded_activeAt_unique _ _ _ _ Hact
                (rounded_activeAt_last _ _ Hne Hpos He)) as Hk.
  pose proof (duration_positive _ _ _ Hpos Hnth) as Hd.
  pose proof (duration_representable _ _ _ Hrep Hnth) as Hr.
  assert (length scenes <> 0%nat) as Hlen
    by (destruct scenes; [contradiction | simpl; lia]).
  assert (sequenceLength scenes - 1 = Z.of_nat k)%Z as Hlast
    by (unfold sequenceLength; lia).
  eexists. split; [exact Hst |].
  split; [simpl; lia |].
  split; [apply rounded_stateAt_progress_unit |].
  rewrite Hlast, (durationAt_nth _ _ _ Hnth), <- Hk. intro Hreached.
  simpl. apply ltb_true in Hd as Hb. rewrite Hb.
  apply ratio_one; [exact Hd |].
  apply rounded_clamp_above; [exact Hr | lra | exact Hreached].
Qed.

Lemma sampleCatalog_representable : Rounded.representableDurations sampleCatalog.
Proof.
  unfold Rounded.representableDurations, sampleCatalog.
  repeat (constructor; [vm_compute; reflexivity |]). constructor.
Qed.

(** C2, as amended.  At elapsed 0 the resolver returns index 0 with progress
    0.  At elapsed equal to the total duration, the durations summed in
    order in binary64, it returns the index of the last scene with a
    progress between 0 and 1; the progress is 1 when the start of the last
    scene plus its duration is at most the total, that is, when the last
    addition of the sum did not round down. *)
Theorem resolver_boundaries (scenes : list SceneDescriptor) :
  scenes <> [] -> positiveDurations scenes -> Rounded.representableDurations scenes ->
  (exists st,
      Rounded.getSceneState scenes 0 = Some st /\
      index st = 0%Z /\ progress st == 0) /\
  (exists st,
      Rounded.getSceneState scenes (Rounded.totalDuration scenes) = Some st /\
      index st = (sequenceLength scenes - 1)%Z /\
      0 <= progress st <= 1 /\
      (Rounded.offsetBefore scenes (length scenes - 1)
       + durationAt scenes (sequenceLength scenes - 1)
       <= Rounded.totalDuration scenes ->
       progress st == 1)).
Proof.
  intros Hne Hpos Hrep. split.
  - destruct (rounded_getSceneState_start scenes 0 Hne Hpos Hrep (Qle_refl 0))
      as (st & Hst & Hi & _ & Hp).
    exists st. auto.
  - apply (rounded_getSceneState_end scenes (Rounded.totalDuration scenes) Hne Hpos Hrep).
    apply Qle_refl.
Qed.

Lemma resolver_boundaries_witness :
  (exists st,
      Rounded.getSceneState sampleCatalog 0 = Some st /\
      index st = 0%Z /\ progress st == 0) /\
  (exists st,
      Rounded.getSceneState sampleCatalog (Rounded.totalDuration sampleCatalog) = Some st /\
      index st = (sequenceLength sampleCatalog - 1)%Z /\
      progress st == 1).
Proof.
  destruct (resolver_boundaries sampleCatalog) as (Hstart & st & Hst & Hi & _ & Hend).
  - discriminate.
  - exact sampleCatalog_positive.
  - exact sampleCatalog_representable.
  - split; [exact Hstart |]. exists st. split; [exact Hst |]. split; [exact Hi |].
    apply Hend. vm_compute. discriminate.
Defined.

Lemma roundingCatalog_positive : positiveDurations roundingCatalog.
Proof.
  unfold positiveDurations, roundingCatalog.
  repeat (constructor; [vm_compute; reflexivity |]). constructor.
Qed.

Lemma roundingCatalog_representable : Rounded.representableDurations roundingCatalog.
Proof.
  unfold Rounded.representableDurations, roundingCatalog.
  repeat (constructor; [apply representable_round64 || (vm_compute; reflexivity) |]).
  constructor.
Qed.

(** The durations 7.9, 8.5, 10.7, 3, 11.9, 8.7, 6.4 and 2.9 sum to 60 in
    binary64; at 60 the last scene is resolved a few units in the last place
    before its end. *)
Example roundingCatalog_at_total :
  Rounded.totalDuration roundingCatalog == 60 /\
  exists st,
    Rounded.getSceneState roundingCatalog 60 = Some st /\
    index st = 7%Z /\
    sceneElapsed st < duration (sampleScene "triumph" warm (Float64.lit 2.9)) /\
    progress st < 1.
Proof.
  split; [vm_compute; reflexivity |].
  eexists. split; [vm_compute; reflexivity |].
  split; [reflexivity |]. split; vm_compute; reflexivity.
Qed.

(** Against C2 as stated: on a catalog of eight scenes with positive
    durations that sum to 60, the resolver at the total does not return
    progress 1. *)
Lemma resolver_boundaries_counterexample :
  ~ (exists st,
        Rounded.getSceneState roundingCatalog (Rounded.totalDuration roundingCatalog)
        = Some st /\
        index st = (sequenceLength roundingCatalog - 1)%Z /\
        progress st == 1).
Proof.
  intros (st & Hst & _ & Hp).
  vm_compute in Hst. injection Hst as <-.
  vm_compute in Hp. discriminate.
Qed.

(** C10, as amended.  The resolver has a result at every elapsed time, also
    outside the range from 0 to the total duration, and the scene-local
    elapsed time is clamped between 0 and the duration of the resolved
    scene.  Before 0 it returns index 0 with scene-local elapsed time 0 and
    progress 0.  From the total duration on it returns the index of the last
    scene with a progress between 0 and 1; the progress is 1 from the start
    of the last scene plus its duration on. *)
Theorem resolver_total_outside_range (scenes : list SceneDescriptor) (elapsed : Q) :
  exists st,
    Rounded.getSceneState scenes elapsed = Some st /\
    (scenes <> [] -> positiveDurations scenes -> Rounded.representableDurations scenes ->
     (0 <= sceneElapsed st <= durationAt scenes (index st)) /\
     (elapsed < 0 ->
      index st = 0%Z /\ sceneElapsed st == 0 /\ progress st == 0) /\
     (Rounded.totalDuration scenes <= elapsed ->
      index st = (sequenceLength scenes - 1)%Z /\
      0 <= progress st <= 1 /\
      (Rounded.offsetBefore scenes (length scenes - 1)
       + durationAt scenes (sequenceLength scenes - 1) <= elapsed ->
       progress st == 1))).
Proof.
  destruct (rounded_getSceneState_total scenes elapsed) as (st & Hst).
  exists st. split; [exact Hst |]. intros Hne Hpos Hrep. split; [| split].
  - destruct (rounded_getSceneState_active scenes elapsed Hne)
      as (k & sc & Hnth & _ & Hst').
    rewrite Hst in Hst'. injection Hst' as ->. simpl.
    rewrite (durationAt_nth _ _ _ Hnth).
    pose proof (duration_positive _ _ _ Hpos Hnth) as Hd.
    split; [apply clamp_nonneg; lra | apply clamp_le].
  - intro Hneg.
    destruct (rounded_getSceneState_start scenes elapsed Hne Hpos Hrep)
      as (st' & Hst' & H); [lra |].
    rewrite Hst in Hst'. injection Hst' as <-. exact H.
  - intro Hpast.
    destruct (rounded_getSceneState_end scenes elapsed Hne Hpos Hrep Hpast)
      as (st' & Hst' & H).
    rewrite Hst in Hst'. injection Hst' as <-. exact H.
Qed.

Lemma resolver_total_outside_range_witness :
  (exists st,
      Rounded.getSceneState sampleCatalog (-3) = Some st /\
      index st = 0%Z /\ sceneElapsed st == 0 /\ progress st == 0) /\
  (exists st,
      Rounded.getSceneState sampleCatalog 75 = Some st /\
      index st = (sequenceLength sampleCatalog - 1)%Z /\ progress st == 1).
Proof.
  split.
  - destruct (resolver_total_outside_range sampleCatalog (-3)) as (st & Hst & H).
    destruct H as (_ & Hbefore & _);
      [discriminate | exact sampleCatalog_positive | exact sampleCatalog_representable |].
    exists st. split; [exact Hst |]. apply Hbefore. reflexivity.
  - destruct (resolver_total_outside_range sampleCatalog 75) as (st & Hst & H).
    destruct H as (_ & _ & Hbeyond);
      [discriminate | exact sampleCatalog_positive | exact sampleCatalog_representable |].
    destruct Hbeyond as (Hi & _ & Hone); [vm_compute; discriminate |].
    exists st. split; [exact Hst |]. split; [exact Hi |].
    apply Hone. vm_compute. discriminate.
Defined.

Lemma driftCatalog_positive : positiveDurations driftCatalog.
Proof.
  unfold positiveDurations, driftCatalog.
  repeat (constructor; [vm_compute; reflexivity |]). constructor.
Qed.

(** The durations 0.7 and 0.1 sum to 0.7999999999999999 in binary64, and
    that sum less 0.7 is below 0.1. *)
Example driftCatalog_at_total :
  Rounded.totalDuration driftCatalog == Float64.lit 0.7999999999999999 /\
  exists st,
    Rounded.getSceneState driftCatalog (Rounded.totalDuration driftCatalog) = Some st /\
    index st = 1%Z /\
    sceneElapsed st < Float64.lit 0.1 /\
    progress st < 1.
Proof.
  split; [vm_compute; reflexivity |].
  eexists. split; [vm_compute; reflexivity |].
  split; [reflexivity |]. split; vm_compute; reflexivity.
Qed.

(** Against C10 as stated: on the catalog of 0.7 and 0.1 seconds the
    elapsed time that equals the total is at the total, and the resolver does
    not return progress 1 there. *)
Lemma resolver_total_outside_range_counterexample :
  Rounded.totalDuration driftCatalog <= Rounded.totalDuration driftCatalog /\
  ~ (exists st,
        Rounded.getSceneState driftCatalog (Rounded.totalDuration driftCatalog)
        = Some st /\
        index st = (sequenceLength driftCatalog - 1)%Z /\
        progress st == 1).
Proof.
  split; [apply Qle_refl |].
  intros (st & Hst & _ & Hp).
  vm_compute in Hst. injection Hst as <-.
  vm_compute in Hp. discriminate.
Qed.

(** ** More on the resolver in binary64 *)

(** The active scene has started. *)
Lemma rounded_activeAt_started (scenes : list SceneDescriptor) (elapsed : Q) (k : nat) :
  0 <= elapsed -> Rounded.activeAt scenes elapsed k ->
  Rounded.offsetBefore scenes k <= elapsed.
Proof.
  intros He (_ & Hbefore & _). destruct k as [| k]; [exact He |].
  apply (Hbefore k). lia.
Qed.

(** X2.  Before the total the clamp of the resolver is idle: for an elapsed
    time that is a double, not negative and below the total, the scene-local
    elapsed time is the difference between the elapsed time and the start of
    the resolved scene, as the subtraction rounds it. *)
Theorem resolver_clamp_idle (scenes : list SceneDescriptor) (elapsed : Q) :
  scenes <> [] -> Rounded.representableDurations scenes ->
  Float64.representable elapsed ->
  0 <= elapsed -> elapsed < Rounded.totalDuration scenes ->
  exists st,
    Rounded.getSceneState scenes elapsed = Some st /\
    sceneElapsed st
    == Float64.sub elapsed (Rounded.offsetBefore scenes (Z.to_nat (index st))).
Proof.
  intros Hne Hrep Hdouble Hlow Hhigh.
  destruct (rounded_getSceneState_active scenes elapsed Hne)
    as (k & scene & Hnth & Hact & Hst).
  eexists. split; [exact Hst |]. simpl. rewrite Nat2Z.id.
  pose proof (rounded_activeAt_started _ _ _ Hlow Hact) as Hstart.
  pose proof (rounded_offsetBefore_succ _ _ _ Hnth) as Hend.
  pose proof (duration_representable _ _ _ Hrep Hnth) as Hr.
  assert (elapsed < Float64.add (Rounded.offsetBefore scenes k) (duration scene)) as Hlt.
  { rewrite <- Hend. destruct Hact as (_ & _ & [Hlt | Hlast]); [exact Hlt |].
    rewrite Hlast. exact Hhigh. }
  assert (elapsed <= Rounded.offsetBefore scenes k + duration scene) as Hle
    by (apply lt_round64_representable; assumption).
  assert (0 <= Float64.sub elapsed (Rounded.offsetBefore scenes k)) as Hsub0
    by (apply round64_nonneg; lra).
  assert (Float64.sub elapsed (Rounded.offsetBefore scenes k) <= duration scene) as Hsubd
    by (apply round64_le_representable; [exact Hr | lra]).
  rewrite (Q.max_l _ 0 Hsub0). apply Q.min_l. exact Hsubd.
Qed.

Lemma resolver_clamp_idle_witness :
  exists st,
    Rounded.getSceneState roundingCatalog 20 = Some st /\
    sceneElapsed st
    == Float64.sub 20 (Rounded.offsetBefore roundingCatalog (Z.to_nat (index st))).
Proof.
  apply (resolver_clamp_idle roundingCatalog 20).
  - discriminate.
  - exact roundingCatalog_representable.
  - vm_compute. reflexivity.
  - vm_compute. discriminate.
  - vm_compute. reflexivity.
Defined.

(** X4.  With positive durations, at the start of a scene as the loop
    accumulates it (where the timeline draws its tick) the resolver has just
    switched to that scene, unless the accumulator absorbed its duration: it
    returns its index, with scene-local elapsed time 0 and progress 0. *)
Theorem resolver_switches_at_offsets (scenes : list SceneDescriptor) (k : nat) :
  positiveDurations scenes -> (k < length scenes)%nat ->
  Rounded.offsetBefore scenes k < Rounded.offsetBefore scenes (S k) ->
  exists st,
    Rounded.getSceneState scenes (Rounded.offsetBefore scenes k) = Some st /\
    index st = Z.of_nat k /\ sceneElapsed st == 0 /\ progress st == 0.
Proof.
  intros Hpos Hk Hgrows.
  assert (scenes <> []) as Hne by (intros ->; simpl in Hk; lia).
  set (elapsed := Rounded.offsetBefore scenes k) in *.
  assert (Rounded.activeAt scenes elapsed k) as Hhere.
  { split; [exact Hk |]. split.
    - intros j Hj. apply rounded_offset_mono; [exact Hpos | lia].
    - left. exact Hgrows. }
  destruct (rounded_getSceneState_active scenes elapsed Hne)
    as (k' & scene & Hnth & Hact & Hst).
  pose proof (rounded_activeAt_unique _ _ _ _ Hact Hhere) as ->.
  pose proof (duration_positive _ _ _ Hpos Hnth) as Hd.
  eexists. split; [exact Hst |]. simpl.
  split; [reflexivity |].
  assert (Qmin (Qmax (Float64.sub elapsed (Rounded.offsetBefore scenes k)) 0)
               (duration scene) == 0) as Hclamp
    by (apply rounded_clamp_below; [apply Qle_refl | lra]).
  split; [exact Hclamp |].
  apply ltb_true in Hd as Hb. rewrite Hb. apply ratio_zero. exact Hclamp.
Qed.

Lemma resolver_switches_at_offsets_witness :
  exists st,
    Rounded.getSceneState roundingCatalog (Rounded.offsetBefore roundingCatalog 3) = Some st /\
    index st = Z.of_nat 3 /\ sceneElapsed st == 0 /\ progress st == 0.
Proof.
  apply (resolver_switches_at_offsets roundingCatalog 3).
  - exact roundingCatalog_positive.
  - simpl. lia.
  - vm_compute. reflexivity.
Defined.

(** The frame in binary64: sums of a constant and a part of a span. *)
Lemma add_span_range (base span part : Q) :
  Float64.representable base -> 0 <= part <= span ->
  base <= Float64.add base part <= Float64.add base span.
Proof.
  intros Hb (Hl & Hh). unfold Float64.add. split.
  - apply round64_ge_representable; [exact Hb | lra].
  - apply round64_mono. lra.
Qed.

Lemma sub_span_range (base span part : Q) :
  Float64.representable base -> 0 <= part <= span ->
  Float64.sub base span <= Float64.sub base part <= base.
Proof.
  intros Hb (Hl & Hh). unfold Float64.sub. split.
  - apply round64_mono. lra.
  - apply round64_le_representable; [exact Hb | lra].
Qed.

(** X6.  For every catalog and every elapsed time the frame stays within its
    bounds: the scale of the viewport lies between 1.02 and
    1.1400000000000001, which is what 1.02 + 0.12 gives in binary64, and
    the climber between 35 and 65 percent from the left and between 25 and
    45 percent from the top. *)
Theorem frame_geometry_bounds (scenes : list SceneDescriptor) (elapsed : Q) :
  exists st,
    Rounded.getSceneState scenes elapsed = Some st /\
    Float64.lit 1.02 <= Rounded.viewportScale st <= Float64.lit 1.1400000000000001 /\
    35 <= Rounded.climberLeft st <= 65 /\
    25 <= Rounded.climberTop st <= 45.
Proof.
  destruct (rounded_progress_unit scenes elapsed) as (st & Hst & Hunit).
  exists st. split; [exact Hst |].
  unfold Rounded.viewportScale, Rounded.climberLeft, Rounded.climberTop.
  split; [| split].
  - destruct (add_span_range (Float64.lit 1.02) (Float64.lit 0.12)
                (Float64.mul (progress st) (Float64.lit 0.12))) as (Hl & Hh).
    + apply representable_round64.
    + apply mul_unit_range;
        [exact Hunit | vm_compute; discriminate | apply representable_round64].
    + split; [exact Hl |].
      apply Qle_trans with (Float64.add (Float64.lit 1.02) (Float64.lit 0.12));
        [exact Hh | vm_compute; discriminate].
  - destruct (add_span_range 35 30 (Float64.mul (progress st) 30)) as (Hl & Hh).
    + vm_compute. reflexivity.
    + apply mul_unit_range;
        [exact Hunit | discriminate | vm_compute; reflexivity].
    + split; [exact Hl |].
      apply Qle_trans with (Float64.add 35 30); [exact Hh | vm_compute; discriminate].
  - destruct (sub_span_range 45 20 (Float64.mul (progress st) 20)) as (Hl & Hh).
    + vm_compute. reflexivity.
    + apply mul_unit_range;
        [exact Hunit | discriminate | vm_compute; reflexivity].
    + split; [| exact Hh].
      apply Qle_trans with (Float64.sub 45 20); [vm_compute; discriminate | exact Hl].
Qed.

(** The upper bound of the scale is above 1.14. *)
Example viewportScale_at_end :
  Float64.add (Float64.lit 1.02) (Float64.mul 1 (Float64.lit 0.12))
  == Float64.lit 1.1400000000000001 /\
  1.14 < Float64.lit 1.1400000000000001.
Proof. split; vm_compute; reflexivity. Qed.

(** ** The ticks of the timeline in binary64 *)

Lemma rounded_total_positive (scenes : list SceneDescriptor) :
  scenes <> [] -> positiveDurations scenes -> Rounded.representableDurations scenes ->
  0 < Rounded.totalDuration scenes.
Proof.
  intros Hne Hpos Hrep.
  destruct scenes as [| scene scenes'] eqn:Hscenes; [contradiction |].
  rewrite <- Hscenes in *.
  assert (nth_error scenes 0 = Some scene) as Hnth by (rewrite Hscenes; reflexivity).
  pose proof (duration_positive _ _ _ Hpos Hnth) as Hd.
  pose proof (duration_representable _ _ _ Hrep Hnth) as Hr.
  apply Qlt_le_trans with (Rounded.offsetBefore scenes 1).
  - rewrite (rounded_offsetBefore_succ _ _ _ Hnth).
    change (Rounded.offsetBefore scenes 0) with 0.
    rewrite (add_0_l _ Hr). exact Hd.
  - unfold Rounded.totalDuration. apply rounded_offset_mono; [exact Hpos |].
    rewrite Hscenes. simpl. lia.
Qed.

(** X7.  On a catalog with positive durations, with the durations summed in
    order as total, every tick of the timeline has a position; the first
    tick is at 0, every tick lies between 0 and 1, and the tick of a later
    scene is not to the left of the tick of an earlier one. *)
Theorem timeline_ticks_ordered (scenes : list SceneDescriptor) (i : nat) :
  positiveDurations scenes -> Rounded.representableDurations scenes ->
  (i < length scenes)%nat ->
  exists offset,
    Rounded.sceneOffset scenes (Rounded.totalDuration scenes) i = Some offset /\
    0 <= offset <= 1 /\
    (i = 0%nat -> offset == 0) /\
    (forall j offset',
        (i < j)%nat -> (j < length scenes)%nat ->
        Rounded.sceneOffset scenes (Rounded.totalDuration scenes) j = Some offset' ->
        offset <= offset').
Proof.
  intros Hpos Hrep Hi.
  assert (scenes <> []) as Hne by (intros ->; simpl in Hi; lia).
  pose proof (rounded_total_positive scenes Hne Hpos Hrep) as Htotal.
  assert (forall n, Rounded.sceneOffset scenes (Rounded.totalDuration scenes) n
                    = Some (Float64.round64 (Rounded.offsetBefore scenes n
                                             / Rounded.totalDuration scenes))) as Hdef
    by (intro n; apply div_positive; exact Htotal).
  eexists. split; [apply Hdef |].
  assert (0 <= Rounded.offsetBefore scenes i) as Hlow
    by (apply (rounded_offset_mono scenes 0 i Hpos); lia).
  assert (Rounded.offsetBefore scenes i <= Rounded.totalDuration scenes) as Hhigh
    by (apply rounded_offset_mono; [exact Hpos | lia]).
  split; [apply ratio_unit_range; [exact Htotal | split; assumption] |].
  split.
  - intros ->. apply ratio_zero. reflexivity.
  - intros j offset' Hij Hj Hoff. rewrite Hdef in Hoff. injection Hoff as <-.
    apply round64_mono. unfold Qdiv. apply Qmult_le_compat_r.
    + apply rounded_offset_mono; [exact Hpos | lia].
    + apply Qinv_le_0_compat. apply Qlt_le_weak. exact Htotal.
Qed.

Lemma timeline_ticks_ordered_witness :
  exists offset,
    Rounded.sceneOffset roundingCatalog (Rounded.totalDuration roundingCatalog) 2
    = Some offset /\
    0 <= offset <= 1 /\
    (2%nat = 0%nat -> offset == 0) /\
    (forall j offset',
        (2 < j)%nat -> (j < length roundingCatalog)%nat ->
        Rounded.sceneOffset roundingCatalog (Rounded.totalDuration roundingCatalog) j
        = Some offset' ->
        offset <= offset').
Proof.
  apply (timeline_ticks_ordered roundingCatalog 2).
  - exact roundingCatalog_positive.
  - exact roundingCatalog_representable.
  - simpl. lia.
Defined.

(** X18.  The end of a run is in the last scene: when the total of the clock
    is the sum of the positive durations of the catalog, added in order, the
    resolver maps the elapsed time of a complete state of a run to the last
    scene, with a progress between 0 and 1; the progress is 1 when the start
    of the last scene plus its duration is at most the total. *)
Theorem complete_run_resolves_last
        (scenes : list SceneDescriptor) (TOTAL : Q) (st : Player) :
  scenes <> [] -> positiveDurations scenes -> Rounded.representableDurations scenes ->
  TOTAL == Rounded.totalDuration scenes ->
  reachable TOTAL st -> playbackState st = complete ->
  exists s,
    Rounded.getSceneState scenes (elapsed st) = Some s /\
    index s = (sequenceLength scenes - 1)%Z /\
    0 <= progress s <= 1 /\
    (Rounded.offsetBefore scenes (length scenes - 1)
     + durationAt scenes (sequenceLength scenes - 1) <= TOTAL ->
     progress s == 1).
Proof.
  intros Hne Hpos Hrep Htotal Hreach Hdone.
  pose proof (complete_at_total TOTAL st Hreach Hdone) as Hat.
  destruct (rounded_getSceneState_end scenes (elapsed st) Hne Hpos Hrep)
    as (s & Hs & Hi & Hp & Hone).
  - rewrite Hat, Htotal. apply Qle_refl.
  - exists s. split; [exact Hs |]. split; [exact Hi |]. split; [exact Hp |].
    intro H. apply Hone. rewrite Hat. exact H.
Qed.

Lemma complete_run_resolves_last_witness :
  exists s,
    Rounded.getSceneState sampleCatalog (elapsed finishedPlayer) = Some s /\
    index s = (sequenceLength sampleCatalog - 1)%Z /\
    progress s == 1.
Proof.
  destruct (complete_run_resolves_last sampleCatalog 60 finishedPlayer)
    as (s & Hs & Hi & _ & Hone).
  - discriminate.
  - exact sampleCatalog_positive.
  - exact sampleCatalog_representable.
  - vm_compute. reflexivity.
  - exact finishedPlayer_reachable.
  - reflexivity.
  - exists s. split; [exact Hs |]. split; [exact Hi |].
    apply Hone. vm_compute. discriminate.
Defined.

(** ** Pause and resume *)

(** X15.  Before the total, a pause followed by a resume, or a resume
    followed by a pause, gives back the phase, the elapsed time and the mute
    flag of a player that is not complete, and leaves the baseline of the
    clock cleared. *)
Theorem pause_resume_restores (TOTAL : Q) (st : Player) :
  playbackState st <> complete -> elapsed st < TOTAL ->
  let st' := dispatch TOTAL PauseToggle (dispatch TOTAL PauseToggle st) in
  playbackState st' = playbackState st /\
  elapsed st' = elapsed st /\
  mute st' = mute st /\
  lastTimestampRef st' = None.
Proof.
  intros Hphase Hlt st'. subst st'. apply ltb_true in Hlt.
  destruct st as [phase e m l].
  cbn [playbackState elapsed mute] in *.
  destruct phase; [| | contradiction];
    unfold dispatch; cbn -[Num.ltb]; rewrite ?Hlt; cbn -[Num.ltb]; rewrite ?Hlt;
    repeat split; reflexivity.
Qed.

Lemma pause_resume_restores_witness :
  let st' := dispatch 60 PauseToggle (dispatch 60 PauseToggle playingRun) in
  playbackState st' = playbackState playingRun /\
  elapsed st' = elapsed playingRun /\
  mute st' = mute playingRun /\
  lastTimestampRef st' = None.
Proof.
  apply (pause_resume_restores 60 playingRun).
  - discriminate.
  - reflexivity.
Defined.

(** ** The targets of the scene effect in binary64 *)

Lemma mul_nonneg_mono (c x y : Q) : 0 <= c -> x <= y -> Float64.mul c x <= Float64.mul c y.
Proof.
  intros Hc H. unfold Float64.mul. apply round64_mono.
  rewrite !(Qmult_comm c). apply Qmult_le_compat_r; assumption.
Qed.

Lemma mul_nonneg_mono_l (c x y : Q) : 0 <= c -> x <= y -> Float64.mul x c <= Float64.mul y c.
Proof.
  intros Hc H. unfold Float64.mul. apply round64_mono.
  apply Qmult_le_compat_r; assumption.
Qed.

Lemma add_mono_r (a x y : Q) : x <= y -> Float64.add a x <= Float64.add a y.
Proof. intro H. unfold Float64.add. apply round64_mono. lra. Qed.

Lemma rounded_crunchPulse_range (sin : Q -> Q) (PI : Q)
      (currentScene : SceneDescriptor) (sceneProgress : Q) :
  (forall x, -(1) <= sin x <= 1) ->
  Float64.lit (-(0.050000000000000044))
  <= Rounded.crunchPulse sin PI currentScene sceneProgress <= 0.75.
Proof.
  intro Hsin. unfold Rounded.crunchPulse.
  destruct (_ || _); [| split; vm_compute; discriminate].
  destruct (Hsin (Float64.mul (Float64.mul sceneProgress PI) 4)) as (Hlow & Hhigh).
  assert (0 <= Float64.lit 0.4) as Hc by (vm_compute; discriminate).
  split.
  - apply Qle_trans
      with (Float64.add (Float64.lit 0.35) (Float64.mul (Float64.lit 0.4) (-(1))));
      [vm_compute; discriminate |].
    apply add_mono_r. apply mul_nonneg_mono; assumption.
  - apply Qle_trans
      with (Float64.add (Float64.lit 0.35) (Float64.mul (Float64.lit 0.4) 1));
      [| vm_compute; discriminate].
    apply add_mono_r. apply mul_nonneg_mono; assumption.
Qed.

(** A gain plus a share of the crunch term. *)
Lemma crunch_share_range (gain share crunch : Q) :
  0 <= share ->
  Float64.lit (-(0.050000000000000044)) <= crunch <= 0.75 ->
  Float64.add gain (Float64.mul (Float64.lit (-(0.050000000000000044))) share)
  <= Float64.add gain (Float64.mul crunch share)
  <= Float64.add gain (Float64.mul 0.75 share).
Proof.
  intros Hs (Hl & Hh). split; apply add_mono_r; apply mul_nonneg_mono_l; assumption.
Qed.

(** X19.  With a sine between -1 and 1, the crunch term lies between
    -0.050000000000000044, which is what 0.35 - 0.4 gives in binary64, and
    0.75, and every ramp that the scene effect schedules has a positive time
    constant and a target that is positive and at most the double 1.175. *)
Theorem scene_targets_bounded (sin : Q -> Q) (PI : Q)
        (nodes : Soundscape.InternalNodes)
        (currentScene : SceneDescriptor) (sceneProgress : Q) :
  (forall x, -(1) <= sin x <= 1) ->
  Float64.lit (-(0.050000000000000044))
  <= Rounded.crunchPulse sin PI currentScene sceneProgress <= 0.75 /\
  forall param target start constant,
    In (param, Soundscape.setTargetAtTime target start constant)
       (Rounded.sceneEffect sin PI (Some nodes) currentScene sceneProgress) ->
    0 < target /\ target <= Float64.lit 1.175 /\ 0 < constant.
Proof.
  intro Hsin.
  pose proof (rounded_crunchPulse_range sin PI currentScene sceneProgress Hsin) as Hcrunch.
  split; [exact Hcrunch |].
  intros param target start constant Hin.
  unfold Rounded.sceneEffect in Hin.
  set (crunch := Rounded.crunchPulse sin PI currentScene sceneProgress) in *.
  cbn [In] in Hin.
  destruct Hin as [H | [H | [H | [H | [H | [H | []]]]]]];
    try discriminate; injection H as _ <- _ <-.
  - destruct (tone currentScene); repeat split; vm_compute; reflexivity || discriminate.
  - destruct (crunch_share_range
                (Soundscape.shimmer (Rounded.toneGains (tone currentScene)))
                (Float64.lit 0.3) crunch) as (Hl & Hh);
      [vm_compute; discriminate | exact Hcrunch |].
    split; [| split; [| vm_compute; reflexivity]].
    + eapply Qlt_le_trans; [| exact Hl].
      destruct (tone currentScene); vm_compute; reflexivity.
    + eapply Qle_trans; [exact Hh |].
      destruct (tone currentScene); vm_compute; discriminate.
  - destruct (crunch_share_range
                (Soundscape.pulse (Rounded.toneGains (tone currentScene)))
                (Float64.lit 0.5) crunch) as (Hl & Hh);
      [vm_compute; discriminate | exact Hcrunch |].
    split; [| split; [| vm_compute; reflexivity]].
    + eapply Qlt_le_trans; [| exact Hl].
      destruct (tone currentScene); vm_compute; reflexivity.
    + eapply Qle_trans; [exact Hh |].
      destruct (tone currentScene); vm_compute; discriminate.
Qed.

Lemma scene_targets_bounded_witness :
  Float64.lit (-(0.050000000000000044))
  <= Rounded.crunchPulse (fun _ => -(1)) 3 (sampleScene "ascent" transition 8) (3 # 8)
  <= 0.75 /\
  forall param target start constant,
    In (param, Soundscape.setTargetAtTime target start constant)
       (Rounded.sceneEffect (fun _ => -(1)) 3 (Some sampleNodes)
                            (sampleScene "ascent" transition 8) (3 # 8)) ->
    0 < target /\ target <= Float64.lit 1.175 /\ 0 < constant.
Proof.
  apply (scene_targets_bounded (fun _ => -(1)) 3 sampleNodes
           (sampleScene "ascent" transition 8) (3 # 8)).
  intro x. split; vm_compute; discriminate.
Defined.

(** At a sine of -1 the crunch term is below -0.05. *)
Example crunchPulse_at_trough :
  Rounded.crunchPulse (fun _ => -(1)) 3 (sampleScene "ascent" transition 8) (3 # 8)
  == Float64.lit (-(0.050000000000000044)) /\
  Float64.lit (-(0.050000000000000044)) < -(0.05).
Proof. split; vm_compute; reflexivity. Qed.
